(** * A static-file HTTP server: routing, buffering and the request loop

    Shallow embedding of [server_v3.py] (selector based server),
    [server_v1.py] (blocking, one session at a time) and [config_parser.py]
    (lexer, parser and accessors of the configuration):

    - [RouteMatcher.match_location]  longest-prefix route resolution;
    - [DataProvider]                 the per-connection byte buffer;
    - [HTTPProcessor]                the try/except wrapper around the parser;
    - [Server._handle_request], [Server._service_connection] (v3) and
      [HTTPSession.handle] (v1)      the request loops, with their socket
                                     effects recorded as a trace, for the
                                     route map that the configuration gives;
    - [Server_v3], [Server_v1]       the same loops with the route lookup
                                     that they evaluate for each request,
                                     and which may raise;
    - [SimpleConfigLexer.tokenize], [SimpleConfigParser._parse_block] and
      [ServerConfig]                 from the configuration text to the routes;
    - [RecursionLimit]               the parser on a call stack with a limit.

    Python [bytes] are [list byte], Python [str] are [string] (one
    character per 8-bit code), a [dict] of headers is a [gmap], the ordered
    [dict] of routes is the list of its [items()].  Calls on the socket and
    on the selector ([sendall], [unregister], [close]) are taken to succeed
    and are recorded in order; [recv] gives bytes or raises; reading a file
    either gives its content or raises; [print] is left out. *)

From Stdlib Require Import ZArith Lia Bool.
From Stdlib Require Import Strings.Byte Strings.Ascii Strings.String.
From Stdlib Require Import Numbers.DecimalString Numbers.DecimalNat Numbers.DecimalFacts.
From stdpp Require Import base option list strings gmap.

Open Scope string_scope.
Open Scope Z_scope.
Open Scope list_scope.

(** ** Bytes and text *)

Abbreviation bytes := (list byte).

Definition CRLF : string := String "013" (String "010" EmptyString).

(** [b"..."] literals and [str.encode()] on text made of 8-bit codes. *)
Definition encode (s : string) : bytes := list_byte_of_string s.
Definition decode (b : bytes) : string := string_of_list_byte b.

(** [len(x)] is a Python integer. *)
Definition len {A} (l : list A) : Z := Z.of_nat (length l).
Definition str_len (s : string) : Z := Z.of_nat (String.length s).

(** [str(n)] for a length: decimal digits, no sign, ["0"] for zero. *)
Definition str_of_nat (n : nat) : string :=
  NilZero.string_of_uint (Nat.to_uint n).

(** Reading a decimal numeral back (used to state what a header means). *)
Definition decimal_value (s : string) : option nat :=
  match NilZero.uint_of_string s with
  | Some d => Some (Nat.of_uint d)
  | None => None
  end.

(** [s.lower()] on 8-bit text: the letters A-Z are mapped, every other code
    is left as it is (which does not change where an ASCII word occurs in
    the result). *)
Definition lower_ascii (c : ascii) : ascii :=
  let n := nat_of_ascii c in
  if (65 <=? n)%nat && (n <=? 90)%nat then ascii_of_nat (n + 32) else c.

Fixpoint lower (s : string) : string :=
  match s with
  | EmptyString => EmptyString
  | String c s' => String (lower_ascii c) (lower s')
  end.

(** [sub in s] for strings. *)
Fixpoint contains (sub s : string) : bool :=
  String.prefix sub s ||
  match s with
  | EmptyString => false
  | String _ s' => contains sub s'
  end.

(** ** Route matching ([RouteMatcher.match_location]) *)

Module RouteMatcher.

(** One iteration of the [for path, root_dir in locations.items()] loop;
    the accumulator is [(matched_location, longest_prefix)]. *)
Definition step (uri : string) (acc : option string * Z)
    (entry : string * string) : option string * Z :=
  let '(matched_location, longest_prefix) := acc in
  let '(path, root_dir) := entry in
  if String.prefix path uri && (longest_prefix <? str_len path)
  then (Some root_dir, str_len path)
  else (matched_location, longest_prefix).

Definition match_location (locations : list (string * string))
    (uri : string) : option string :=
  fst (fold_left (step uri) locations (None, -1)).

End RouteMatcher.

(** ** Requests, exceptions and the parser interface

    [http_parser.py] is imported by both servers.  The servers only use the
    fields [url] and [headers] of a message; the tests also read [method],
    [version] and [body]. *)

Record HTTPMessage := {
  method : string;
  url : string;
  version : string;
  headers : gmap string string;
  body : bytes
}.

(** Instances of Python's [Exception] class, which is what
    [except Exception] catches. *)
Inductive exn :=
| IncompleteMessageError
| InvalidMessageError
| OtherException (name : string).

(** What one call [HTTPParser.parse_message(data)] can do: return a pair
    [(message, consumed)], where [message] may be [None], or raise. *)
Inductive parse_outcome :=
| Returns (message : option HTTPMessage) (consumed : Z)
| Raises (e : exn).

(** ** The connection buffer ([DataProvider]) *)

Module DataProvider.

Record t := { _data : bytes }.

Definition __init__ : t := {| _data := [] |}.

(** The [data] property. *)
Definition data (self : t) : bytes := _data self.

(** The [data] setter: [self._data += chunk]. *)
Definition set_data (self : t) (chunk : bytes) : t :=
  {| _data := _data self ++ chunk |}.

(** Python's [b[size:]]: a negative [size] counts from the end, and the
    start is clipped to the range of the sequence. *)
Definition slice_from (size : Z) (b : bytes) : bytes :=
  let start := if size <? 0 then Z.max 0 (len b + size) else Z.min size (len b) in
  drop (Z.to_nat start) b.

Definition reduce_data (self : t) (size : Z) : t :=
  {| _data := slice_from size (_data self) |}.

End DataProvider.

(** ** Computations over the buffer that may raise *)

Inductive outcome (A : Type) :=
| Normal (v : A)
| Raised (e : exn).
Arguments Normal {A} v.
Arguments Raised {A} e.

Definition Py (A : Type) : Type := DataProvider.t -> outcome A * DataProvider.t.

Definition ret {A} (v : A) : Py A := fun d => (Normal v, d).

Definition bind {A B} (m : Py A) (k : A -> Py B) : Py B :=
  fun d =>
    match m d with
    | (Normal v, d') => k v d'
    | (Raised e, d') => (Raised e, d')
    end.

Definition raise {A} (e : exn) : Py A := fun d => (Raised e, d).

(** [try: m  except Exception: handler].  Writes to the buffer made before
    the exception stay. *)
Definition try_except {A} (m : Py A) (handler : exn -> Py A) : Py A :=
  fun d =>
    match m d with
    | (Normal v, d') => (Normal v, d')
    | (Raised e, d') => handler e d'
    end.

Notation "'let*' x := m 'in' k" := (bind m (fun x => k))
  (at level 10, x name, m at level 100, k at level 200).

(** ** The message processor ([HTTPProcessor]) *)

Module HTTPProcessor.
Section Processor.

Variable parse_message : bytes -> parse_outcome.

Definition call_parse_message : Py (option HTTPMessage * Z) :=
  fun d =>
    match parse_message (DataProvider.data d) with
    | Returns message consumed => (Normal (message, consumed), d)
    | Raises e => (Raised e, d)
    end.

Definition reduce_data (size : Z) : Py unit :=
  fun d => (Normal tt, DataProvider.reduce_data d size).

(** [if message:] on an [Optional[HTTPMessage]]. *)
Definition truthy (message : option HTTPMessage) : bool :=
  match message with Some _ => true | None => false end.

Definition get_one_http_message : Py (option HTTPMessage) :=
  try_except
    (let* r := call_parse_message in
     let* done := (if truthy (fst r) then reduce_data (snd r) else ret tt) in
     ret (fst r))
    (fun _ => ret None).

End Processor.
End HTTPProcessor.

(** ** Responses *)

(** What the server does to the socket of one connection, in order. *)
Inductive event :=
| Sendall (payload : bytes)
| Unregister
| Close.

(** The [headers] string of the 200 branch, before the keep-alive test. *)
Definition ok_headers (body : bytes) : string :=
  "HTTP/1.1 200 OK" +:+ CRLF +:+
  "Content-Length: " +:+ str_of_nat (length body) +:+ CRLF +:+
  "Content-Type: text/plain" +:+ CRLF.

(** The payload of [_send_404]. *)
Definition msg_404 : bytes := encode "404 Not Found".

Definition _send_404 : event :=
  Sendall (encode ("HTTP/1.1 404 Not Found" +:+ CRLF +:+
                   "Content-Length: " +:+ str_of_nat (length msg_404) +:+ CRLF +:+
                   "Content-Type: text/plain" +:+ CRLF +:+ CRLF)
           ++ msg_404).

(** [request.headers.get("connection", default).lower()] contains
    "keep-alive", the default being the empty string. *)
Definition keep_alive (request : HTTPMessage) : bool :=
  contains "keep-alive" (lower (default EmptyString (headers request !! "connection"))).

(** [f"{root}"] for a value that is a string or [None]. *)
Definition format_root (root : option string) : string :=
  match root with Some r => r | None => "None" end.

(** The first lines of the loop body: from the request's URL to
    [(root, url)] and to [file_path = f"{root}{url}"]. *)
Definition resolve (locations : list (string * string)) (request_url : string)
  : option string * string :=
  if String.eqb request_url "/"
  then (Some "html", "/index.html")
  else (RouteMatcher.match_location locations request_url, request_url).

Definition file_path (locations : list (string * string)) (request_url : string)
  : string :=
  let '(root, url) := resolve locations request_url in
  format_root root +:+ url.

(** ** The selector-based server ([server_v3.py]) *)

(** Whether the body of the [while request := ...] loop falls through to
    the next iteration or executes [return]. *)
Inductive flow := Continue | Return.

Module Server.
Section Server.

Variable parse_message : bytes -> parse_outcome.
(** [open(file_path, "rb")] followed by [f.read()]: [None] when either
    raises. *)
Variable read_file : string -> option bytes.
(** The items of the route map that
    [self.config.routes[self.config.listen_ports[0]]] gives. *)
Variable locations : list (string * string).

(** One registered client socket: its [DataProvider] (the selector key's
    [data]) and what has been done to the socket so far. *)
Record conn := {
  data_provider : DataProvider.t;
  trace : list event
}.

(** The body of the loop in [_handle_request] for one request, once the
    routes are there: the socket events it performs, and how it leaves. *)
Definition serve (request : HTTPMessage) : list event * flow :=
  match read_file (file_path locations (url request)) with
  | Some body =>
      let headers := ok_headers body in
      if keep_alive request then
        let headers := headers +:+ "Connection: keep-alive" +:+ CRLF in
        let headers := headers +:+ CRLF in
        ([Sendall (encode headers ++ body)], Continue)
      else
        ([Unregister; Close], Return)
  | None =>
      ([_send_404; Unregister; Close], Return)
  end.

(** [_handle_request] for the route map [locations]; [None] only when
    [fuel] iterations were not enough. *)
Fixpoint _handle_request (fuel : nat) (c : conn) : option (outcome unit * conn) :=
  match fuel with
  | O => None
  | S fuel' =>
      match HTTPProcessor.get_one_http_message parse_message (data_provider c) with
      | (Raised e, d) => Some (Raised e, {| data_provider := d; trace := trace c |})
      | (Normal None, d) => Some (Normal tt, {| data_provider := d; trace := trace c |})
      | (Normal (Some request), d) =>
          let '(evs, fl) := serve request in
          let c' := {| data_provider := d; trace := trace c ++ evs |} in
          match fl with
          | Continue => _handle_request fuel' c'
          | Return => Some (Normal tt, c')
          end
      end
  end.

(** [_service_connection] for a read event; [received] is what
    [sock.recv(1024)] gave, [None] standing for [ConnectionResetError]. *)
Definition _service_connection (fuel : nat) (received : option bytes) (c : conn)
  : option (outcome unit * conn) :=
  match received with
  | Some (b :: chunk) =>
      _handle_request fuel
        {| data_provider := DataProvider.set_data (data_provider c) (b :: chunk);
           trace := trace c |}
  | _ =>
      Some (Normal tt, {| data_provider := data_provider c;
                          trace := trace c ++ [Unregister; Close] |})
  end.

(** [_accept_connection]: a fresh buffer, nothing done to the socket yet. *)
Definition _accept_connection : conn :=
  {| data_provider := DataProvider.__init__; trace := [] |}.

End Server.
End Server.

(** ** The blocking server ([server_v1.py]) *)

Module HTTPSession.
Section Session.

Variable parse_message : bytes -> parse_outcome.
Variable read_file : string -> option bytes.
(** The items of the route map that [self.server_config.routes[self.port]]
    gives. *)
Variable locations : list (string * string).

Record session := {
  data_provider : DataProvider.t;
  trace : list event;
  active : bool
}.

Definition __init__ : session :=
  {| data_provider := DataProvider.__init__; trace := []; active := true |}.

(** The body of the inner loop of [handle] for one request, once the
    routes are there: the socket events and the new value of
    [self.active]. *)
Definition serve (request : HTTPMessage) (act : bool) : list event * bool :=
  match read_file (file_path locations (url request)) with
  | Some body =>
      let headers := ok_headers body in
      let '(headers, act) :=
        if keep_alive request
        then (headers +:+ "Connection: keep-alive" +:+ CRLF, act)
        else (headers, false) in
      let headers := headers +:+ CRLF in
      ([Sendall (encode headers ++ body)], act)
  | None => ([_send_404], act)
  end.

(** The inner [while request := ...] loop. *)
Fixpoint drain (fuel : nat) (s : session) : option (outcome unit * session) :=
  match fuel with
  | O => None
  | S fuel' =>
      match HTTPProcessor.get_one_http_message parse_message (data_provider s) with
      | (Raised e, d) =>
          Some (Raised e, {| data_provider := d; trace := trace s; active := active s |})
      | (Normal None, d) =>
          Some (Normal tt, {| data_provider := d; trace := trace s; active := active s |})
      | (Normal (Some request), d) =>
          let '(evs, act) := serve request (active s) in
          drain fuel' {| data_provider := d; trace := trace s ++ evs; active := act |}
      end
  end.

(** [handle]; [received] lists what the successive [recv(1024)] calls give,
    the peer having shut down once the list is used up. *)
Fixpoint handle (fuel : nat) (received : list bytes) (s : session)
  : option (outcome unit * session) :=
  let closed :=
    {| data_provider := data_provider s; trace := trace s ++ [Close];
       active := active s |} in
  if active s then
    match received with
    | (b :: chunk) :: rest =>
        match drain fuel {| data_provider := DataProvider.set_data (data_provider s) (b :: chunk);
                            trace := trace s; active := active s |} with
        | Some (Normal _, s') => handle fuel rest s'
        | other => other
        end
    | _ => Some (Normal tt, closed)
    end
  else Some (Normal tt, closed).

End Session.
End HTTPSession.

(** ** The request loops with their route lookup

    In both servers the loop body asks for the routes anew for every
    request whose path is not "/": the expression
    [self.config.routes[self.config.listen_ports[0]]] of [server_v3.py]
    (line 162), [self.server_config.routes[self.port]] of [server_v1.py]
    (line 111), stands before the [try] statement, so that an exception it
    raises leaves the loop and the function.  The configuration is not
    changed while a server runs: every evaluation of the expression goes
    the same way, and [routes_lookup] is that way, the items of the route
    map (with the roots as [f"{root}"] writes them) or the exception.
    [Server.serve] and [HTTPSession.serve] above are the loop body for the
    route map that the expression gave. *)

Module Server_v3.
Section Loop.

Variable parse_message : bytes -> parse_outcome.
Variable read_file : string -> option bytes.
Variable routes_lookup : exn + list (string * string).

(** From the request's URL to [(root, url)]; the routes are looked up in
    the [else] branch only. *)
Definition locate (request_url : string) : exn + (option string * string) :=
  if String.eqb request_url "/"
  then inr (Some "html", "/index.html")
  else
    match routes_lookup with
    | inl e => inl e
    | inr locations => inr (RouteMatcher.match_location locations request_url, request_url)
    end.

(** The [try] statement of the loop body for the file at [file_path]. *)
Definition respond (request : HTTPMessage) (file_path : string) : list event * flow :=
  match read_file file_path with
  | Some body =>
      let headers := ok_headers body in
      if keep_alive request then
        let headers := headers +:+ "Connection: keep-alive" +:+ CRLF in
        let headers := headers +:+ CRLF in
        ([Sendall (encode headers ++ body)], Continue)
      else
        ([Unregister; Close], Return)
  | None =>
      ([_send_404; Unregister; Close], Return)
  end.

(** [_handle_request]; [None] only when [fuel] iterations were not enough. *)
Fixpoint _handle_request (fuel : nat) (c : Server.conn)
  : option (outcome unit * Server.conn) :=
  match fuel with
  | O => None
  | S fuel' =>
      match HTTPProcessor.get_one_http_message parse_message (Server.data_provider c) with
      | (Raised e, d) =>
          Some (Raised e, {| Server.data_provider := d; Server.trace := Server.trace c |})
      | (Normal None, d) =>
          Some (Normal tt, {| Server.data_provider := d; Server.trace := Server.trace c |})
      | (Normal (Some request), d) =>
          match locate (url request) with
          | inl e =>
              Some (Raised e, {| Server.data_provider := d; Server.trace := Server.trace c |})
          | inr (root, url) =>
              let file_path := format_root root +:+ url in
              let '(evs, fl) := respond request file_path in
              let c' := {| Server.data_provider := d;
                           Server.trace := Server.trace c ++ evs |} in
              match fl with
              | Continue => _handle_request fuel' c'
              | Return => Some (Normal tt, c')
              end
          end
      end
  end.

(** [_service_connection] for a read event; [received] is what
    [sock.recv(1024)] gave, [None] standing for [ConnectionResetError]. *)
Definition _service_connection (fuel : nat) (received : option bytes) (c : Server.conn)
  : option (outcome unit * Server.conn) :=
  match received with
  | Some (b :: chunk) =>
      _handle_request fuel
        {| Server.data_provider :=
             DataProvider.set_data (Server.data_provider c) (b :: chunk);
           Server.trace := Server.trace c |}
  | _ =>
      Some (Normal tt, {| Server.data_provider := Server.data_provider c;
                          Server.trace := Server.trace c ++ [Unregister; Close] |})
  end.

End Loop.
End Server_v3.

Module Server_v1.
Section Loop.

Variable parse_message : bytes -> parse_outcome.
Variable read_file : string -> option bytes.
Variable routes_lookup : exn + list (string * string).

Definition locate (request_url : string) : exn + (option string * string) :=
  if String.eqb request_url "/"
  then inr (Some "html", "/index.html")
  else
    match routes_lookup with
    | inl e => inl e
    | inr locations => inr (RouteMatcher.match_location locations request_url, request_url)
    end.

(** The [try] statement of the loop body for the file at [file_path]: the
    socket events and the new value of [self.active]. *)
Definition respond (request : HTTPMessage) (file_path : string) (act : bool)
  : list event * bool :=
  match read_file file_path with
  | Some body =>
      let headers := ok_headers body in
      let '(headers, act) :=
        if keep_alive request
        then (headers +:+ "Connection: keep-alive" +:+ CRLF, act)
        else (headers, false) in
      let headers := headers +:+ CRLF in
      ([Sendall (encode headers ++ body)], act)
  | None => ([_send_404], act)
  end.

(** The inner [while request := ...] loop. *)
Fixpoint drain (fuel : nat) (s : HTTPSession.session)
  : option (outcome unit * HTTPSession.session) :=
  match fuel with
  | O => None
  | S fuel' =>
      match HTTPProcessor.get_one_http_message parse_message
              (HTTPSession.data_provider s) with
      | (Raised e, d) =>
          Some (Raised e, {| HTTPSession.data_provider := d;
                             HTTPSession.trace := HTTPSession.trace s;
                             HTTPSession.active := HTTPSession.active s |})
      | (Normal None, d) =>
          Some (Normal tt, {| HTTPSession.data_provider := d;
                              HTTPSession.trace := HTTPSession.trace s;
                              HTTPSession.active := HTTPSession.active s |})
      | (Normal (Some request), d) =>
          match locate (url request) with
          | inl e =>
              Some (Raised e, {| HTTPSession.data_provider := d;
                                 HTTPSession.trace := HTTPSession.trace s;
                                 HTTPSession.active := HTTPSession.active s |})
          | inr (root, url) =>
              let file_path := format_root root +:+ url in
              let '(evs, act) := respond request file_path (HTTPSession.active s) in
              drain fuel' {| HTTPSession.data_provider := d;
                             HTTPSession.trace := HTTPSession.trace s ++ evs;
                             HTTPSession.active := act |}
          end
      end
  end.

(** [handle]; [received] lists how the successive [recv(1024)] calls go,
    each giving bytes or raising ([recv] has no handler); the peer has shut
    down once the list is used up.  An exception leaves [handle] before its
    last line, [self.connection.close()]. *)
Fixpoint handle (fuel : nat) (received : list (exn + bytes)) (s : HTTPSession.session)
  : option (outcome unit * HTTPSession.session) :=
  let closed :=
    {| HTTPSession.data_provider := HTTPSession.data_provider s;
       HTTPSession.trace := HTTPSession.trace s ++ [Close];
       HTTPSession.active := HTTPSession.active s |} in
  if HTTPSession.active s then
    match received with
    | inl e :: _ => Some (Raised e, s)
    | inr (b :: chunk) :: rest =>
        match drain fuel
                {| HTTPSession.data_provider :=
                     DataProvider.set_data (HTTPSession.data_provider s) (b :: chunk);
                   HTTPSession.trace := HTTPSession.trace s;
                   HTTPSession.active := HTTPSession.active s |} with
        | Some (Normal _, s') => handle fuel rest s'
        | other => other
        end
    | _ => Some (Normal tt, closed)
    end
  else Some (Normal tt, closed).

End Loop.
End Server_v1.

(** ** The message parser ([http_parser.py])

    The module itself is not among the sources; its tests
    ([tests/test_http_parser.py]) and both servers call
    [HTTPParser.parse_message].  Everything in this module is modelled from
    the specification of the parser and checked on the inputs of the
    tests. *)

Module HTTPParser.

(** Modelled from the spec: helper of the absent parser, [l.startswith(sub)]
    on bytes. *)
Fixpoint starts_with (sub l : bytes) : bool :=
  match sub, l with
  | [], _ => true
  | _ :: _, [] => false
  | x :: sub', y :: l' => Byte.eqb x y && starts_with sub' l'
  end.

(** Modelled from the spec: helper of the absent parser, [l.find(sub)], the
    index of the first occurrence ("splits input on the first occurrence of
    the header/body separator"). *)
Fixpoint find (sub l : bytes) : option nat :=
  if starts_with sub l then Some O
  else match l with
       | [] => None
       | _ :: l' => option_map S (find sub l')
       end.

(** Modelled from the spec: the header/body separator, CR LF CR LF. *)
Definition separator : bytes := [x0d; x0a; x0d; x0a].

(** Modelled from the spec: the lines of the header block, which end in
    CR LF. *)
Fixpoint split_lines (l : bytes) : list bytes :=
  match l with
  | [] => [[]]
  | x0d :: x0a :: rest => [] :: split_lines rest
  | c :: rest =>
      match split_lines rest with
      | cur :: more => (c :: cur) :: more
      | [] => [[c]]
      end
  end.

(** Modelled from the spec: the whitespace between tokens, space or tab. *)
Definition is_space (c : ascii) : bool :=
  Ascii.eqb c " " || Ascii.eqb c "009".

(** Modelled from the spec: the whitespace-separated tokens of the start
    line; [cur] is the token being read. *)
Fixpoint tokens (s cur : string) : list string :=
  match s with
  | EmptyString => if String.eqb cur EmptyString then [] else [cur]
  | String c s' =>
      if is_space c
      then (if String.eqb cur EmptyString then tokens s' EmptyString else cur :: tokens s' EmptyString)
      else tokens s' (cur +:+ String c EmptyString)
  end.

(** Modelled from the spec: a header line split at its first colon; none
    when it has no colon. *)
Fixpoint split_colon (s : string) : option (string * string) :=
  match s with
  | EmptyString => None
  | String c s' =>
      if Ascii.eqb c ":" then Some (EmptyString, s')
      else match split_colon s' with
           | Some (name, value) => Some (String c name, value)
           | None => None
           end
  end.

(** Modelled from the spec: the space after the colon is not part of the
    value (wire format [name ":" SP value]); blanks around names and values
    are dropped. *)
Fixpoint lstrip (s : string) : string :=
  match s with
  | String c s' => if is_space c then lstrip s' else s
  | EmptyString => EmptyString
  end.

(** Modelled from the spec: see [lstrip]. *)
Fixpoint rstrip (s : string) : string :=
  match s with
  | EmptyString => EmptyString
  | String c s' =>
      let r := rstrip s' in
      if is_space c && String.eqb r EmptyString then EmptyString else String c r
  end.

(** Modelled from the spec: see [lstrip]. *)
Definition strip (s : string) : string := rstrip (lstrip s).

(** Modelled from the spec: the header lines after the start line, into a
    mapping from lower-case name to value; a repeated name keeps its last
    value; a line without a colon is invalid. *)
Fixpoint parse_headers (lines : list bytes) (acc : gmap string string)
  : exn + gmap string string :=
  match lines with
  | [] => inr acc
  | line :: lines' =>
      match split_colon (decode line) with
      | None => inl InvalidMessageError
      | Some (name, value) =>
          parse_headers lines' (<[lower (strip name) := strip value]> acc)
      end
  end.

(** Modelled from the spec: start line (exactly three tokens) and header
    lines of the block before the separator. *)
Definition parse_head (head : bytes)
  : exn + (string * string * string * gmap string string) :=
  match split_lines head with
  | [] => inl InvalidMessageError
  | start :: lines =>
      match tokens (decode start) EmptyString with
      | [m; u; v] =>
          match parse_headers lines ∅ with
          | inl e => inl e
          | inr hs => inr (m, u, v, hs)
          end
      | _ => inl InvalidMessageError
      end
  end.

(** Modelled from the spec: [HTTPParser.parse_message] of [http_parser.py],
    which is not among the sources.  The input is split at the first
    header/body separator (none yet: [IncompleteMessageError], nothing
    consumed); the start line must be exactly three whitespace-separated
    tokens and every header line must have a colon, else
    [InvalidMessageError]; header names are stored in lower case; a
    [content-length] header must be a non-negative decimal integer, else
    [InvalidMessageError], and that many body bytes must be present after
    the separator, else [IncompleteMessageError]; without the header the
    body is empty.  On success the result is the message and the byte count
    of start line, headers, separator and body. *)
Definition parse_message (data : bytes) : parse_outcome :=
  match find separator data with
  | None => Raises IncompleteMessageError
  | Some idx =>
      let rest := drop (idx + 4) data in
      match parse_head (take idx data) with
      | inl e => Raises e
      | inr (m, u, v, hs) =>
          match hs !! "content-length" with
          | None =>
              Returns (Some {| method := m; url := u; version := v;
                               headers := hs; body := [] |})
                      (Z.of_nat (idx + 4))
          | Some value =>
              match decimal_value value with
              | None => Raises InvalidMessageError
              | Some n =>
                  if (length rest <? n)%nat
                  then Raises IncompleteMessageError
                  else Returns (Some {| method := m; url := u; version := v;
                                        headers := hs; body := take n rest |})
                               (Z.of_nat (idx + 4 + n))
              end
          end
      end
  end.

End HTTPParser.

(** ** The configuration lexer ([config_parser.py], [SimpleConfigLexer])

    A token is the pair [(type, value)] of two strings.  The regular
    expression built from [TOKEN_PATTERNS] is an alternation tried in the
    order of the list at the current position; each alternative is modelled
    as a function from the text at that position to the matched text and
    the rest. *)

Definition Token : Type := (string * string)%type.

(** The exception classes raised by the configuration code. *)
Definition SyntaxError : exn := OtherException "SyntaxError".
Definition ValueError : exn := OtherException "ValueError".
Definition TypeError : exn := OtherException "TypeError".
Definition AttributeError : exn := OtherException "AttributeError".

Module SimpleConfigLexer.

(** The longest run of characters of a class at the front of a text, and
    what follows it: a greedy repetition of the class. *)
Fixpoint span (cls : ascii -> bool) (s : string) : string * string :=
  match s with
  | EmptyString => (EmptyString, EmptyString)
  | String c s' =>
      if cls c
      then let '(run, rest) := span cls s' in (String c run, rest)
      else (EmptyString, s)
  end.

(** [.] without the DOTALL flag: any character but the line feed. *)
Definition dot (c : ascii) : bool := negb (Ascii.eqb c "010").

(** The class of every character but the double quote. *)
Definition not_quote (c : ascii) : bool := negb (Ascii.eqb c "034").

(** Letters, digits, underscore, dot, slash and hyphen: the class of
    WORD. *)
Definition word_char (c : ascii) : bool :=
  let n := nat_of_ascii c in
  ((97 <=? n)%nat && (n <=? 122)%nat) ||
  ((65 <=? n)%nat && (n <=? 90)%nat) ||
  ((48 <=? n)%nat && (n <=? 57)%nat) ||
  Ascii.eqb c "_" || Ascii.eqb c "." || Ascii.eqb c "/" || Ascii.eqb c "-".

(** Space, tab, carriage return and line feed: the class of
    WHITESPACE. *)
Definition space_char (c : ascii) : bool :=
  Ascii.eqb c " " || Ascii.eqb c "009" || Ascii.eqb c "013" || Ascii.eqb c "010".

(** An alternative of the expression: the matched text and the rest, or no
    match at this position. *)
Definition pattern : Type := string -> option (string * string).

(** A hash sign and the rest of the line. *)
Definition re_comment : pattern := fun s =>
  match s with
  | String c s' =>
      if Ascii.eqb c "#"
      then let '(run, rest) := span dot s' in Some (String c run, rest)
      else None
  | EmptyString => None
  end.

(** A single literal character: a brace or the semicolon. *)
Definition re_char (ch : ascii) : pattern := fun s =>
  match s with
  | String c s' => if Ascii.eqb c ch then Some (String c EmptyString, s') else None
  | EmptyString => None
  end.

(** A double quote, any characters that are not double quotes, a double
    quote: the run must be followed by the closing quote. *)
Definition re_string : pattern := fun s =>
  match s with
  | String c s' =>
      if Ascii.eqb c "034"
      then let '(run, rest) := span not_quote s' in
           match rest with
           | String q rest' => Some (String c (run +:+ String q EmptyString), rest')
           | EmptyString => None
           end
      else None
  | EmptyString => None
  end.

(** A run of one character or more of a class. *)
Definition re_plus (cls : ascii -> bool) : pattern := fun s =>
  match span cls s with
  | (EmptyString, _) => None
  | (run, rest) => Some (run, rest)
  end.

Definition TOKEN_PATTERNS : list (string * pattern) :=
  [ ("COMMENT", re_comment);
    ("LBRACE", re_char "{");
    ("RBRACE", re_char "}");
    ("SEMICOLON", re_char ";");
    ("STRING", re_string);
    ("WORD", re_plus word_char);
    ("WHITESPACE", re_plus space_char) ].

(** [token_re.match(text, pos)]: the first alternative that matches, as
    [(match.lastgroup, match.group(), text[match.end():])]. *)
Fixpoint token_re_match (patterns : list (string * pattern)) (s : string)
  : option (string * string * string) :=
  match patterns with
  | [] => None
  | (name, re) :: patterns' =>
      match re s with
      | Some (text, rest) => Some (name, text, rest)
      | None => token_re_match patterns' s
      end
  end.

(** [value.strip(q)] for the double quote [q]: the quotes at both ends
    go. *)
Fixpoint lstrip_quotes (s : string) : string :=
  match s with
  | String c s' => if Ascii.eqb c "034" then lstrip_quotes s' else s
  | EmptyString => EmptyString
  end.

Fixpoint rstrip_quotes (s : string) : string :=
  match s with
  | EmptyString => EmptyString
  | String c s' =>
      let r := rstrip_quotes s' in
      if Ascii.eqb c "034" && String.eqb r EmptyString then EmptyString else String c r
  end.

Definition strip_quotes (s : string) : string := rstrip_quotes (lstrip_quotes s).

(** The loop of [tokenize] from the position where [s] starts; [None] only
    when [fuel] iterations were not enough. *)
Fixpoint tokenize_from (fuel : nat) (s : string) : option (exn + list Token) :=
  match s with
  | EmptyString => Some (inr [])
  | String _ _ =>
      match fuel with
      | O => None
      | S fuel' =>
          match token_re_match TOKEN_PATTERNS s with
          | None => Some (inl SyntaxError)
          | Some (kind, value, rest) =>
              match tokenize_from fuel' rest with
              | Some (inr tokens) =>
                  if String.eqb kind "WHITESPACE" || String.eqb kind "COMMENT"
                  then Some (inr tokens)
                  else if String.eqb kind "STRING"
                  then Some (inr ((kind, strip_quotes value) :: tokens))
                  else Some (inr ((kind, value) :: tokens))
              | other => other
              end
          end
      end
  end.

(** [tokenize]: every iteration moves [pos] forward, so the length of the
    text bounds the iterations. *)
Definition tokenize (config_text : string) : option (exn + list Token) :=
  tokenize_from (String.length config_text) config_text.

End SimpleConfigLexer.

(** ** The configuration parser ([SimpleConfigParser])

    A parsed configuration is a dictionary whose values are strings,
    dictionaries or lists; a dictionary is the list of its items in
    insertion order. *)

#[warnings="-register-all"]
Inductive value :=
| Str (s : string)
| Lst (l : list value)
| Dict (d : list (string * value)).

(** [d.get(key)] and [key in d] *)
Fixpoint dict_get {K V} (eqb : K -> K -> bool) (key : K) (d : list (K * V)) : option V :=
  match d with
  | [] => None
  | (k, v) :: d' => if eqb k key then Some v else dict_get eqb key d'
  end.

(** [d[key] = v]: an existing key keeps its place, a new one goes last. *)
Fixpoint dict_set {K V} (eqb : K -> K -> bool) (key : K) (v : V) (d : list (K * V))
  : list (K * V) :=
  match d with
  | [] => [(key, v)]
  | (k, v0) :: d' =>
      if eqb k key then (k, v) :: d' else (k, v0) :: dict_set eqb key v d'
  end.

Module SimpleConfigParser.

(** What [_parse_block] gives: the dictionary and the tokens from
    [self.pos] on, or an exception; [None] only without fuel. *)
Definition result : Type := option (exn + (list (string * value) * list Token)).

(** [value = args[0] if len(args) == 1 else args] *)
Definition value_of_args (args : list string) : value :=
  match args with
  | [a] => Str a
  | _ => Lst (map Str args)
  end.

(** How a directive's value, or a block without argument, enters the
    dictionary: alone the first time, in a list from the second time on. *)
Definition add_value (key : string) (v : value) (config : list (string * value))
  : list (string * value) :=
  match dict_get String.eqb key config with
  | Some (Lst l) => dict_set String.eqb key (Lst (l ++ [v])) config
  | Some old => dict_set String.eqb key (Lst [old; v]) config
  | None => dict_set String.eqb key v config
  end.

(** How a block enters the dictionary: under [config[key][arg_key]] when
    it has an argument, like a value otherwise. *)
Definition add_block (key : string) (args : list string) (block : list (string * value))
    (config : list (string * value)) : exn + list (string * value) :=
  match args with
  | arg_key :: _ =>
      match dict_get String.eqb key config with
      | None => inr (dict_set String.eqb key (Dict [(arg_key, Dict block)]) config)
      | Some (Dict d) =>
          inr (dict_set String.eqb key
                 (Dict (dict_set String.eqb arg_key (Dict block) d)) config)
      | Some _ => inl SyntaxError
      end
  | [] => inr (add_value key (Dict block) config)
  end.

(** The inner loop of [_parse_block], which gathers the arguments of the
    directive [key] up to its [;] or [{]; [block_loop] is [_parse_block]
    itself, for the nested block and for the rest of the enclosing one. *)
Fixpoint arguments (block_loop : list (string * value) -> list Token -> result)
    (key : string) (config : list (string * value))
    (args : list string) (tokens : list Token) : result :=
  match tokens with
  | [] => Some (inl SyntaxError)
  | (t_type, t_value) :: tokens' =>
      if String.eqb t_type "LBRACE" then
        if (1 <? length args)%nat then Some (inl SyntaxError)
        else
          match block_loop [] tokens' with
          | Some (inr (block, rest)) =>
              match add_block key args block config with
              | inl e => Some (inl e)
              | inr config' => block_loop config' rest
              end
          | other => other
          end
      else if String.eqb t_type "SEMICOLON" then
        block_loop (add_value key (value_of_args args) config) tokens'
      else if negb (String.eqb t_type "WORD") then Some (inl SyntaxError)
      else arguments block_loop key config (args ++ [t_value]) tokens'
  end.

(** [_parse_block], from the tokens at [self.pos] and with the dictionary
    built so far in this block; the call stack is taken to have room for
    the nested calls ([RecursionLimit] below is the parser on a stack that
    has not). *)
Fixpoint _parse_block (fuel : nat) (config : list (string * value))
    (tokens : list Token) : result :=
  match fuel with
  | O => None
  | S fuel' =>
      match tokens with
      | [] => Some (inr (config, []))
      | (token_type, token_value) :: tokens' =>
          if String.eqb token_type "RBRACE" then Some (inr (config, tokens'))
          else if negb (String.eqb token_type "WORD") then Some (inl SyntaxError)
          else arguments (_parse_block fuel') token_value config [] tokens'
      end
  end.

(** [parse]: the dictionary of the top-level block; the tokens that are
    left are not looked at. *)
Definition parse (tokens : list Token) : option (exn + list (string * value)) :=
  match _parse_block (S (length tokens)) [] tokens with
  | Some (inr (config, _)) => Some (inr config)
  | Some (inl e) => Some (inl e)
  | None => None
  end.

End SimpleConfigParser.

(** ** The parser and the depth of the call stack

    [_parse_block] calls itself for the block behind every opening brace
    (line 131), so that a block nested [k] deep is parsed [k] frames below
    the call of [parse]; Python raises [RecursionError] for the call that
    would go beyond the recursion limit of the interpreter.  [limit] is the
    number of nested calls that the stack still has room for below the
    frames of [parse] and of its own call of [_parse_block].  The message of the [SyntaxError] for a block with several
    arguments (line 128) shows the list of the arguments, and where calls
    of [repr] count against the same limit (as in CPython 3.11: one level
    for the list, one for its strings) formatting it needs [repr_levels] of
    that room, or raises [RecursionError] itself; [repr_levels] is 0 where
    they do not count.  [SimpleConfigParser._parse_block] above is the
    parser on a stack that has room for every block of its input. *)
Definition RecursionError : exn := OtherException "RecursionError".

Module RecursionLimit.
Section Stack.

Variable repr_levels : nat.

(** The inner loop of [_parse_block] in a frame below which there is room
    for [limit] calls: [nested] is the call of [self._parse_block()] for
    the block that opens, one frame further down, and [block_loop] the rest
    of the loop of the enclosing block, in the frame of the caller. *)
Fixpoint arguments (limit : nat) (nested : list Token -> SimpleConfigParser.result)
    (block_loop : list (string * value) -> list Token -> SimpleConfigParser.result)
    (key : string) (config : list (string * value))
    (args : list string) (tokens : list Token) : SimpleConfigParser.result :=
  match tokens with
  | [] => Some (inl SyntaxError)
  | (t_type, t_value) :: tokens' =>
      if String.eqb t_type "LBRACE" then
        if (1 <? length args)%nat then
          if (limit <? repr_levels)%nat then Some (inl RecursionError)
          else Some (inl SyntaxError)
        else
          match nested tokens' with
          | Some (inr (block, rest)) =>
              match SimpleConfigParser.add_block key args block config with
              | inl e => Some (inl e)
              | inr config' => block_loop config' rest
              end
          | other => other
          end
      else if String.eqb t_type "SEMICOLON" then
        block_loop
          (SimpleConfigParser.add_value key (SimpleConfigParser.value_of_args args) config)
          tokens'
      else if negb (String.eqb t_type "WORD") then Some (inl SyntaxError)
      else arguments limit nested block_loop key config (args ++ [t_value]) tokens'
  end.

(** [_parse_block] with room for [limit] nested calls. *)
Fixpoint _parse_block (fuel limit : nat) (config : list (string * value))
    (tokens : list Token) : SimpleConfigParser.result :=
  match fuel with
  | O => None
  | S fuel' =>
      match tokens with
      | [] => Some (inr (config, []))
      | (token_type, token_value) :: tokens' =>
          if String.eqb token_type "RBRACE" then Some (inr (config, tokens'))
          else if negb (String.eqb token_type "WORD") then Some (inl SyntaxError)
          else
            arguments limit
              (match limit with
               | O => fun _ => Some (inl RecursionError)
               | S limit' => _parse_block fuel' limit' []
               end)
              (_parse_block fuel' limit) token_value config [] tokens'
      end
  end.

Definition parse (limit : nat) (tokens : list Token)
  : option (exn + list (string * value)) :=
  match _parse_block (S (length tokens)) limit [] tokens with
  | Some (inr (config, _)) => Some (inr config)
  | Some (inl e) => Some (inl e)
  | None => None
  end.

End Stack.
End RecursionLimit.

(** ** The configuration accessors ([ServerConfig]) *)

(** Python's [int(s)] on a string of 8-bit characters: blanks around, an
    optional sign, then decimal digits, where single underscores may stand
    between digits; a text of more than [max_str_digits] digits is refused.
    [None] stands for [ValueError]. *)
Module PyInt.

(** The characters [int] skips at both ends: tab, line feed, vertical tab,
    form feed, carriage return, space, and among the codes above 127 the
    next-line and no-break-space characters. *)
Definition is_space (c : ascii) : bool :=
  let n := nat_of_ascii c in
  ((9 <=? n)%nat && (n <=? 13)%nat) || (n =? 32)%nat ||
  (n =? 133)%nat || (n =? 160)%nat.

Definition digit_value (c : ascii) : option Z :=
  let n := nat_of_ascii c in
  if (48 <=? n)%nat && (n <=? 57)%nat then Some (Z.of_nat n - 48) else None.

(** The default of [sys.get_int_max_str_digits()]. *)
Definition max_str_digits : Z := 4300.

Fixpoint lstrip (s : string) : string :=
  match s with
  | String c s' => if is_space c then lstrip s' else s
  | EmptyString => EmptyString
  end.

Fixpoint all_space (s : string) : bool :=
  match s with
  | String c s' => is_space c && all_space s'
  | EmptyString => true
  end.

(** The digits, from the value [acc] of the [count] digits already read;
    [after_underscore] says that the character before was an underscore.
    Gives the value, the number of digits and what follows them. *)
Fixpoint digits (s : string) (acc count : Z) (after_underscore : bool)
  : option (Z * Z * string) :=
  match s with
  | EmptyString => if after_underscore then None else Some (acc, count, EmptyString)
  | String c s' =>
      match digit_value c with
      | Some d => digits s' (10 * acc + d) (count + 1) false
      | None =>
          if after_underscore then None
          else if Ascii.eqb c "_" then digits s' acc count true
          else Some (acc, count, s)
      end
  end.

Definition unsigned (s : string) : option Z :=
  match s with
  | String c _ =>
      match digit_value c with
      | Some _ =>
          match digits s 0 0 false with
          | Some (n, count, rest) =>
              if all_space rest && (count <=? max_str_digits) then Some n else None
          | None => None
          end
      | None => None
      end
  | EmptyString => None
  end.

Definition of_string (s : string) : option Z :=
  match lstrip s with
  | String c s' =>
      if Ascii.eqb c "-" then option_map Z.opp (unsigned s')
      else if Ascii.eqb c "+" then unsigned s'
      else unsigned (String c s')
  | EmptyString => None
  end.

End PyInt.

Module ServerConfig.

(** [for x in v]: the items of a list, the characters of a string, the
    keys of a dictionary. *)
Definition iterate (v : value) : list value :=
  match v with
  | Lst l => l
  | Str s => map (fun c => Str (String c EmptyString)) (list_ascii_of_string s)
  | Dict d => map (fun kv => Str (fst kv)) d
  end.

(** [if v:] for a value, [None] included. *)
Definition truthy (v : option value) : bool :=
  match v with
  | None | Some (Str EmptyString) | Some (Lst []) | Some (Dict []) => false
  | Some _ => true
  end.

(** [int(v)] *)
Definition int (v : value) : exn + Z :=
  match v with
  | Str s =>
      match PyInt.of_string s with
      | Some n => inr n
      | None => inl ValueError
      end
  | _ => inl TypeError
  end.

(** [get_servers]; the result is what the callers iterate over. *)
Definition get_servers (config : list (string * value)) : exn + value :=
  match default (Dict []) (dict_get String.eqb "http" config) with
  | Dict http_block =>
      match default (Lst []) (dict_get String.eqb "server" http_block) with
      | Dict servers => inr (Lst [Dict servers])
      | servers => inr servers
      end
  | _ => inl AttributeError
  end.

(** The loop of [listen_ports] over the servers. *)
Fixpoint listen_ports_loop (servers : list value) (ports : list Z) : exn + list Z :=
  match servers with
  | [] => inr ports
  | Dict server :: servers' =>
      match dict_get String.eqb "listen" server with
      | Some port =>
          if truthy (Some port) then
            match int port with
            | inr n => listen_ports_loop servers' (ports ++ [n])
            | inl e => inl e
            end
          else listen_ports_loop servers' ports
      | None => listen_ports_loop servers' ports
      end
  | _ :: _ => inl AttributeError
  end.

Definition listen_ports (config : list (string * value)) : exn + list Z :=
  match get_servers config with
  | inr servers => listen_ports_loop (iterate servers) []
  | inl e => inl e
  end.

(** The loop over the items of one location mapping. *)
Fixpoint items_loop (items : list (string * value)) (route_map : list (string * value))
  : list (string * value) :=
  match items with
  | [] => route_map
  | (path, Dict inner) :: items' =>
      match dict_get String.eqb "root" inner with
      | Some root => items_loop items' (dict_set String.eqb path root route_map)
      | None => items_loop items' route_map
      end
  | _ :: items' => items_loop items' route_map
  end.

(** The loop [for loc in locations]. *)
Fixpoint locations_loop (locations : list value) (route_map : list (string * value))
  : exn + list (string * value) :=
  match locations with
  | [] => inr route_map
  | Dict loc :: locations' => locations_loop locations' (items_loop loc route_map)
  | _ :: _ => inl AttributeError
  end.

(** The body of the loop of [routes] for one server block: its port and
    its route map. *)
Definition server_routes (server : value) : exn + (Z * list (string * value)) :=
  match server with
  | Dict server =>
      match match dict_get String.eqb "listen" server with
            | Some listen => int listen
            | None => inr 80
            end with
      | inl e => inl e
      | inr port =>
          let locations :=
            match default (Dict []) (dict_get String.eqb "location" server) with
            | Dict locations => [Dict locations]
            | locations => iterate locations
            end in
          match locations_loop locations [] with
          | inl e => inl e
          | inr route_map => inr (port, route_map)
          end
      end
  | _ => inl AttributeError
  end.

(** The loop of [routes] over the servers. *)
Fixpoint routes_loop (servers : list value)
    (mapping : list (Z * list (string * value)))
  : exn + list (Z * list (string * value)) :=
  match servers with
  | [] => inr mapping
  | server :: servers' =>
      match server_routes server with
      | inl e => inl e
      | inr (port, route_map) =>
          routes_loop servers' (dict_set Z.eqb port route_map mapping)
      end
  end.

Definition routes (config : list (string * value))
  : exn + list (Z * list (string * value)) :=
  match get_servers config with
  | inr servers => routes_loop (iterate servers) []
  | inl e => inl e
  end.

End ServerConfig.

(** [self.config.routes[self.config.listen_ports[0]]], the expression by
    which both servers get the routes they match a request against:
    [routes] is evaluated first, then [listen_ports], where an empty list
    gives [IndexError], then the lookup, where a missing port gives
    [KeyError]. *)
Definition IndexError : exn := OtherException "IndexError".
Definition KeyError : exn := OtherException "KeyError".

Definition routes_of_first_port (config : list (string * value))
  : exn + list (string * value) :=
  match ServerConfig.routes config with
  | inl e => inl e
  | inr mapping =>
      match ServerConfig.listen_ports config with
      | inl e => inl e
      | inr [] => inl IndexError
      | inr (port :: _) =>
          match dict_get Z.eqb port mapping with
          | Some route_map => inr route_map
          | None => inl KeyError
          end
      end
  end.

(** [load_config] on the text of the file: lexer, parser, wrapper. *)
Definition load_config (config_text : string) : option (exn + list (string * value)) :=
  match SimpleConfigLexer.tokenize config_text with
  | Some (inr tokens) => SimpleConfigParser.parse tokens
  | Some (inl e) => Some (inl e)
  | None => None
  end.

(** * Vocabulary of the properties

    The predicates in which the properties are stated, and the inputs on
    which they are tried. *)

(** ** Routes *)

(** "Literal prefix": the path is the prefix followed by some rest, compared
    character by character. *)
Definition literal_prefix (p s : string) : Prop := exists rest, s = p +:+ rest.

(** What the loop of [match_location] has established once the entries
    [seen] are behind it, for the accumulator [(matched, longest)]. *)
Definition chosen (uri : string) (seen : list (string * string))
    (acc : option string * Z) : Prop :=
  match fst acc with
  | None =>
      snd acc = -1 /\
      forall p r, In (p, r) seen -> ~ literal_prefix p uri
  | Some root =>
      exists l1 p l2,
        seen = l1 ++ (p, root) :: l2 /\
        snd acc = str_len p /\
        literal_prefix p uri /\
        (forall p' r', In (p', r') l1 -> literal_prefix p' uri -> str_len p' < str_len p) /\
        (forall p' r', In (p', r') l2 -> literal_prefix p' uri -> str_len p' <= str_len p)
  end.

(** What the claim says of the result of route resolution: the root of an
    entry whose prefix is a literal prefix of the path, longer than every
    matching entry before it and at least as long as every matching entry
    after it (so the first of the longest wins); absent when nothing
    matches. *)
Definition longest_prefix_choice (locations : list (string * string))
    (uri : string) (result : option string) : Prop :=
  match result with
  | Some root =>
      exists l1 p l2,
        locations = l1 ++ (p, root) :: l2 /\
        literal_prefix p uri /\
        (forall p' r', In (p', r') l1 -> literal_prefix p' uri -> str_len p' < str_len p) /\
        (forall p' r', In (p', r') l2 -> literal_prefix p' uri -> str_len p' <= str_len p)
  | None => forall p r, In (p, r) locations -> ~ literal_prefix p uri
  end.

(** ** Buffer operations *)

(** The two operations of the servers that touch the buffer: the setter,
    with the bytes just received, and a call of [get_one_http_message]. *)
Inductive buffer_op :=
| Receive (chunk : bytes)
| Extract.

Definition apply_op (parse : bytes -> parse_outcome) (d : DataProvider.t)
    (op : buffer_op) : DataProvider.t :=
  match op with
  | Receive chunk => DataProvider.set_data d chunk
  | Extract => snd (HTTPProcessor.get_one_http_message parse d)
  end.

(** All the bytes received, in the order of their arrival. *)
Fixpoint received (ops : list buffer_op) : bytes :=
  match ops with
  | [] => []
  | Receive chunk :: ops' => chunk ++ received ops'
  | Extract :: ops' => received ops'
  end.

(** A parser that reports as consumed a count of bytes of its input. *)
Definition counts_bytes (parse : bytes -> parse_outcome) : Prop :=
  forall data m consumed,
    parse data = Returns (Some m) consumed -> 0 <= consumed <= len data.

(** A parser that, besides, never reports a message without consuming
    something. *)
Definition makes_progress (parse : bytes -> parse_outcome) : Prop :=
  forall data m consumed,
    parse data = Returns (Some m) consumed -> 0 < consumed <= len data.

(** Python's [b[:size]], the prefix that [b[size:]] leaves out: the first
    [size] bytes of [b] when [0 <= size <= len b]; like [b[size:]], a
    negative [size] counts from the end and the bound is clipped to the
    range of the sequence. *)
Definition slice_to (size : Z) (b : bytes) : bytes :=
  let stop := if size <? 0 then Z.max 0 (len b + size) else Z.min size (len b) in
  take (Z.to_nat stop) b.

(** ** Wire format of the responses *)

(** The response formats of the wire protocol, line by line. *)
Definition response_200 (content_length : string) (connection_line : bool)
    (content : bytes) : bytes :=
  encode "HTTP/1.1 200 OK" ++ encode CRLF ++
  encode "Content-Length: " ++ encode content_length ++ encode CRLF ++
  encode "Content-Type: text/plain" ++ encode CRLF ++
  (if connection_line then encode "Connection: keep-alive" ++ encode CRLF else []) ++
  encode CRLF ++
  content.

Definition response_404 (content_length : string) : bytes :=
  encode "HTTP/1.1 404 Not Found" ++ encode CRLF ++
  encode "Content-Length: " ++ encode content_length ++ encode CRLF ++
  encode "Content-Type: text/plain" ++ encode CRLF ++
  encode CRLF ++
  encode "404 Not Found".

(** A 200 response carrying [content]: the Content-Length digits denote the
    number of bytes of [content]. *)
Definition is_200_response (content payload : bytes) : Prop :=
  exists content_length connection_line,
    payload = response_200 content_length connection_line content /\
    decimal_value content_length = Some (length content).

Definition is_404_response (payload : bytes) : Prop :=
  exists content_length,
    payload = response_404 content_length /\
    decimal_value content_length = Some (length (encode "404 Not Found")).

(** The payloads written to the socket, in order. *)
Fixpoint sent (evs : list event) : list bytes :=
  match evs with
  | [] => []
  | Sendall payload :: evs' => payload :: sent evs'
  | _ :: evs' => sent evs'
  end.

(** ** Keeping a connection open *)

(** The value of the Connection header, the empty string without one. *)
Definition connection_value (request : HTTPMessage) : string :=
  default EmptyString (headers request !! "connection").

(** The lower-cased Connection value has "keep-alive" somewhere in it. *)
Definition mentions_keep_alive (request : HTTPMessage) : Prop :=
  exists pre post,
    lower (connection_value request) = pre +:+ "keep-alive" +:+ post.

(** How one iteration of the v3 loop leaves the connection. *)
Definition stays_open (r : list event * flow) : Prop :=
  snd r = Continue /\ ~ In Unregister (fst r) /\ ~ In Close (fst r).

Definition closes (r : list event * flow) : Prop :=
  snd r = Return /\ exists evs, fst r = evs ++ [Unregister; Close].

(** ** Sites and requests *)

(** A site with one page, and requests for it. *)
Definition page : bytes := encode "<h1>It works</h1>".

Definition site (path : string) : option bytes :=
  if String.eqb path "html/index.html" then Some page else None.

Definition site_routes : list (string * string) := [("/", "html")].

Definition get_root : bytes :=
  encode ("GET / HTTP/1.1" +:+ CRLF +:+ "Host: h" +:+ CRLF +:+ CRLF).

Definition bad_request : bytes :=
  encode ("BADREQUEST" +:+ CRLF +:+ "Host: x" +:+ CRLF +:+ CRLF).

Definition with_connection (u value : string) : HTTPMessage :=
  {| method := "GET"; url := u; version := "HTTP/1.1";
     headers := {[ "connection" := value ]}; body := [] |}.

(** A directory called "None" holding a file. *)
Definition none_site (path : string) : option bytes :=
  if String.eqb path "None/x" then Some (encode "stray") else None.

(** The two pipelined requests of [test_multiple_messages_in_one_buffer]
    and the messages they stand for. *)
Definition first_request : bytes :=
  encode ("GET /first HTTP/1.1" +:+ CRLF +:+
          "Host: example.com" +:+ CRLF +:+
          "Content-Length: 0" +:+ CRLF +:+ CRLF).

Definition second_request : bytes :=
  encode ("POST /submit HTTP/1.1" +:+ CRLF +:+
          "Host: example.com" +:+ CRLF +:+
          "Content-Length: 5" +:+ CRLF +:+ CRLF +:+ "hello").

Definition first_message : HTTPMessage :=
  {| method := "GET"; url := "/first"; version := "HTTP/1.1";
     headers := <["content-length" := "0"]> {[ "host" := "example.com" ]};
     body := [] |}.

Definition second_message : HTTPMessage :=
  {| method := "POST"; url := "/submit"; version := "HTTP/1.1";
     headers := <["content-length" := "5"]> {[ "host" := "example.com" ]};
     body := encode "hello" |}.

(** ** Further vocabulary *)

(** The parser does not give a message on these bytes: it raises, or it
    returns a pair without a message. *)
Definition no_message (parse : bytes -> parse_outcome) (data : bytes) : Prop :=
  forall m consumed, parse data <> Returns (Some m) consumed.



(** ** The loops and their requests *)





(** Requests that ask to keep the connection open, for "/" and for the
    page by its name. *)
Definition get_root_keep_alive : bytes :=
  encode ("GET / HTTP/1.1" +:+ CRLF +:+ "Connection: keep-alive" +:+ CRLF +:+ CRLF).


(** A reset of the connection by the peer, as [recv] reports it. *)
Definition ConnectionResetError : exn := OtherException "ConnectionResetError".

(** ** Tokens *)

(** Every character of a text is of a class. *)
Fixpoint string_forall (cls : ascii -> bool) (s : string) : bool :=
  match s with
  | EmptyString => true
  | String c s' => cls c && string_forall cls s'
  end.

(** The tokens the lexer can give: a brace or a semicolon with its
    character, a WORD that is a non-empty run of word characters, a STRING
    without a double quote in it. *)
Definition token_ok (t : Token) : bool :=
  let '(kind, value) := t in
  (String.eqb kind "LBRACE" && String.eqb value "{") ||
  (String.eqb kind "RBRACE" && String.eqb value "}") ||
  (String.eqb kind "SEMICOLON" && String.eqb value ";") ||
  (String.eqb kind "WORD" && negb (String.eqb value EmptyString)
     && string_forall SimpleConfigLexer.word_char value) ||
  (String.eqb kind "STRING" && string_forall SimpleConfigLexer.not_quote value).

(** A text for a list of tokens: each token as it is written, a STRING
    between double quotes, and a space after each. *)
Definition token_text (t : Token) : string :=
  if String.eqb (fst t) "STRING"
  then String "034" (snd t +:+ String "034" EmptyString)
  else snd t.

Fixpoint render (tokens : list Token) : string :=
  match tokens with
  | [] => EmptyString
  | t :: tokens' => token_text t +:+ String " " (render tokens')
  end.

(** The token types the parser lets through. *)
Definition parser_kind (t : Token) : bool :=
  String.eqb (fst t) "WORD" || String.eqb (fst t) "LBRACE" ||
  String.eqb (fst t) "RBRACE" || String.eqb (fst t) "SEMICOLON".

(** An alternative of the lexer's expression that takes at least one
    character whenever it matches. *)
Definition consumes (re : SimpleConfigLexer.pattern) : Prop :=
  forall s text rest,
    re s = Some (text, rest) -> (String.length rest < String.length s)%nat.

(** ** Results of the parser's loops *)

(** What a result has to be, for the tokens it was computed from: the rest
    is no longer than they are, and an exception is [SyntaxError]. *)
Definition fair (r : exn + (list (string * value) * list Token)) (tokens : list Token)
  : Prop :=
  match r with
  | inr (_, rest) => (length rest <= length tokens)%nat
  | inl e => e = SyntaxError
  end.

(** What a successful call has read: the tokens before the rest, none of
    them a STRING; and when there is a rest, the call does not depend on
    it. *)
Definition reads_a_prefix
    (block_loop : list (string * value) -> list Token -> SimpleConfigParser.result)
  : Prop :=
  forall config tokens cfg rest,
    block_loop config tokens = Some (inr (cfg, rest)) ->
    exists consumed,
      tokens = consumed ++ rest /\
      Forall (fun t => parser_kind t = true) consumed /\
      (rest <> [] ->
       forall junk, block_loop config (consumed ++ junk) = Some (inr (cfg, junk))).

(** One more closing brace at the end: it is left in the rest, or it ends a
    call that had run out of tokens. *)
Definition closes_with (rb : Token)
    (block_loop : list (string * value) -> list Token -> SimpleConfigParser.result)
  : Prop :=
  forall config tokens cfg rest,
    block_loop config tokens = Some (inr (cfg, rest)) ->
    block_loop config (tokens ++ [rb]) = Some (inr (cfg, rest ++ [rb])) \/
    (rest = [] /\ block_loop config (tokens ++ [rb]) = Some (inr (cfg, []))).

(** The number of opening braces among the tokens. *)
Fixpoint opening_braces (tokens : list Token) : nat :=
  match tokens with
  | [] => O
  | t :: tokens' =>
      ((if String.eqb (fst t) "LBRACE" then 1 else 0) + opening_braces tokens')%nat
  end.

(** What a call on a stack with room for [limit] nested calls has to give,
    for the tokens it was computed from: [RecursionError], and then the
    opening braces and the levels for the message are more than that room,
    or what the call gives when the stack has room for every block. *)
Definition within_limit (repr_levels limit : nat) (tokens : list Token)
    (r : exn + (list (string * value) * list Token))
    (unbounded : SimpleConfigParser.result) : Prop :=
  (r = inl RecursionError /\ (limit < opening_braces tokens + repr_levels)%nat) \/
  unbounded = Some r.

(** [depth] blocks, each opened inside the one before and none closed. *)
Fixpoint nested_blocks (depth : nat) : list Token :=
  match depth with
  | O => []
  | S depth' => ("WORD", "a") :: ("LBRACE", "{") :: nested_blocks depth'
  end.

(** ** Route tables *)

(** The routes a location mapping declares: for each prefix whose block has
    a [root], the prefix and that root, in the order of the mapping. *)
Fixpoint declared_routes (items : list (string * value)) : list (string * value) :=
  match items with
  | [] => []
  | (path, Dict inner) :: items' =>
      match dict_get String.eqb "root" inner with
      | Some root => (path, root) :: declared_routes items'
      | None => declared_routes items'
      end
  | _ :: items' => declared_routes items'
  end.

(** A configuration with one server block. *)
Definition one_server (server : list (string * value)) : list (string * value) :=
  [("http", Dict [("server", Dict server)])].

(** The exceptions the accessors of [ServerConfig] can raise. *)
Definition config_error (e : exn) : Prop :=
  e = AttributeError \/ e = ValueError \/ e = TypeError.

(** A server block as the parser gives it, with a location that has no
    [root]. *)
Definition sample_items : list (string * value) :=
  [("/", Dict [("root", Str "/data/www")]);
   ("/status", Dict []);
   ("/images", Dict [("root", Str "/data/img")])].

Definition sample_server : list (string * value) :=
  [("listen", Str "8080"); ("location", Dict sample_items)].

(** The tokens of a directive [key] written once for each value, one
    argument each time. *)
Definition directives (key : string) (values : list string) : list Token :=
  flat_map (fun v => [("WORD", key); ("WORD", v); ("SEMICOLON", ";")]) values.

(** Two server blocks on one port. *)
Definition first_block : value :=
  Dict [("listen", Str "80"); ("location", Dict [("/", Dict [("root", Str "first")])])].

Definition second_block : value :=
  Dict [("listen", Str "80"); ("location", Dict [("/api", Dict [("root", Str "second")])])].

Definition two_servers_one_port : list (string * value) :=
  [("http", Dict [("server", Lst [first_block; second_block])])].

(** * Properties *)

(** ** Text *)

Lemma append_String (c : ascii) (s r : string) :
  String c s +:+ r = String c (s +:+ r).
Proof. reflexivity. Qed.

Lemma prefix_literal (p s : string) :
  String.prefix p s = true <-> literal_prefix p s.
Proof.
  revert s. induction p as [|c p IH]; intros s.
  - split; [intros _; exists s; reflexivity | intros _; destruct s; reflexivity].
  - destruct s as [|d s]; simpl.
    + split; [discriminate | intros [r Hr]; discriminate].
    + destruct (ascii_dec c d) as [->|Hne].
      * rewrite IH. unfold literal_prefix.
        split; intros [r Hr]; exists r; rewrite append_String in *; congruence.
      * split; [discriminate|].
        intros [r Hr]; rewrite append_String in Hr; congruence.
Qed.

(** ** Route resolution *)

Section Routing.

Variable uri : string.

Lemma str_len_nonneg (s : string) : 0 <= str_len s.
Proof. unfold str_len. lia. Qed.

Lemma chosen_step seen acc entry :
  chosen uri seen acc -> chosen uri (seen ++ [entry]) (RouteMatcher.step uri acc entry).
Proof.
  destruct acc as [matched longest], entry as [path root_dir].
  unfold chosen, RouteMatcher.step; simpl. intros H.
  destruct (String.prefix path uri) eqn:Hpre; simpl.
  - apply prefix_literal in Hpre.
    destruct (longest <? str_len path) eqn:Hlt; simpl.
    + apply Z.ltb_lt in Hlt.
      exists seen, path, []. repeat (split; [solve [auto]|]). split.
      * intros p' r' Hin Hp'.
        destruct matched as [root|].
        -- destruct H as (l1 & p & l2 & -> & Hl & Hp & Hbefore & Hafter).
           apply in_app_or in Hin as [Hin | [Heq | Hin]].
           ++ specialize (Hbefore _ _ Hin Hp'). lia.
           ++ inversion Heq; subst. lia.
           ++ specialize (Hafter _ _ Hin Hp'). lia.
        -- destruct H as [_ Hnone]. destruct (Hnone _ _ Hin Hp').
      * intros p' r' [].
    + apply Z.ltb_ge in Hlt.
      destruct matched as [root|].
      * destruct H as (l1 & p & l2 & -> & Hl & Hp & Hbefore & Hafter).
        exists l1, p, (l2 ++ [(path, root_dir)]).
        rewrite <- app_assoc. repeat (split; [solve [auto]|]).
        intros p' r' Hin Hp'. apply in_app_or in Hin as [Hin | [Heq | []]].
        -- eauto.
        -- inversion Heq; subst. lia.
      * destruct H as [-> _]. pose proof (str_len_nonneg path). lia.
  - assert (Hno : ~ literal_prefix path uri).
    { intros Hp. apply prefix_literal in Hp. congruence. }
    destruct matched as [root|].
    + destruct H as (l1 & p & l2 & -> & Hl & Hp & Hbefore & Hafter).
      exists l1, p, (l2 ++ [(path, root_dir)]).
      rewrite <- app_assoc. repeat (split; [solve [auto]|]).
      intros p' r' Hin Hp'. apply in_app_or in Hin as [Hin | [Heq | []]].
      * eauto.
      * inversion Heq; subst. contradiction.
    + destruct H as [-> Hnone]. split; auto.
      intros p r Hin. apply in_app_or in Hin as [Hin | [Heq | []]].
      * eauto.
      * inversion Heq; subst. assumption.
Qed.

Lemma chosen_fold rest : forall seen acc,
  chosen uri seen acc ->
  chosen uri (seen ++ rest) (fold_left (RouteMatcher.step uri) rest acc).
Proof.
  induction rest as [|entry rest IH]; intros seen acc H; simpl.
  - rewrite app_nil_r. exact H.
  - replace (seen ++ entry :: rest) with ((seen ++ [entry]) ++ rest)
      by (rewrite <- app_assoc; reflexivity).
    apply IH, chosen_step, H.
Qed.

End Routing.

Lemma match_location_choice locations uri :
  longest_prefix_choice locations uri (RouteMatcher.match_location locations uri).
Proof.
  assert (H0 : chosen uri [] (None, -1)).
  { split; [reflexivity | intros p r []]. }
  pose proof (chosen_fold uri locations [] (None, -1) H0) as H.
  simpl in H. unfold RouteMatcher.match_location, chosen, longest_prefix_choice in *.
  destruct (fst (fold_left (RouteMatcher.step uri) locations (None, -1))) as [root|].
  - destruct H as (l1 & p & l2 & ? & _ & ? & ? & ?). exists l1, p, l2. auto.
  - apply H.
Qed.

(** C4. Route resolution returns the root of the first entry, in iteration
    order, among the matching entries with the longest prefix, the match
    being a literal character-wise prefix test; it returns nothing when no
    prefix matches.  With routes ["/" -> R1, "/api" -> R2], "/api/users"
    resolves to R2 and "/about" to R1. *)
Theorem match_location_longest_prefix :
  (forall locations uri,
     longest_prefix_choice locations uri (RouteMatcher.match_location locations uri)) /\
  (forall R1 R2,
     RouteMatcher.match_location [("/", R1); ("/api", R2)] "/api/users" = Some R2 /\
     RouteMatcher.match_location [("/", R1); ("/api", R2)] "/about" = Some R1).
Proof.
  split.
  - apply match_location_choice.
  - intros R1 R2. split; reflexivity.
Qed.

Lemma literal_prefix_same_length (p q s : string) :
  literal_prefix p s -> literal_prefix q s ->
  String.length p = String.length q -> p = q.
Proof.
  revert q s. induction p as [|c p IH]; intros [|d q] s [r1 H1] [r2 H2] Hlen;
    try discriminate; [reflexivity|].
  subst s. rewrite !append_String in H2. inversion H2; subst.
  f_equal. apply (IH q (p +:+ r1)).
  - exists r1; reflexivity.
  - exists r2; assumption.
  - simpl in Hlen. lia.
Qed.

(** Two different prefixes of one path differ in length, so the chosen prefix
    is strictly longer than every other prefix that matches: ties can only
    come from a prefix listed twice, which a dictionary does not have. *)
Lemma match_location_strict locations uri root :
  RouteMatcher.match_location locations uri = Some root ->
  exists p, In (p, root) locations /\ literal_prefix p uri /\
    forall p' r', In (p', r') locations -> literal_prefix p' uri ->
                  p' <> p -> str_len p' < str_len p.
Proof.
  intros Hm.
  pose proof (match_location_choice locations uri) as H. rewrite Hm in H.
  destruct H as (l1 & p & l2 & -> & Hp & Hbefore & Hafter).
  exists p. split; [apply in_or_app; right; left; reflexivity|].
  split; [assumption|].
  intros p' r' Hin Hp' Hne.
  apply in_app_or in Hin as [Hin | [Heq | Hin]].
  - eauto.
  - congruence.
  - specialize (Hafter _ _ Hin Hp').
    assert (str_len p' <> str_len p); [|lia].
    intros Heq. apply Hne.
    apply (literal_prefix_same_length p' p uri); auto.
    unfold str_len in Heq. lia.
Qed.

(** ** The parser *)

Section ParserFacts.
Import HTTPParser.

Lemma starts_with_length sub : forall l,
  starts_with sub l = true -> (length sub <= length l)%nat.
Proof.
  induction sub as [|x sub IH]; intros [|y l] H; simpl in *; try lia; try discriminate.
  apply andb_true_iff in H as [_ H]. apply IH in H. lia.
Qed.

Lemma starts_with_app sub : forall l r,
  starts_with sub l = true -> starts_with sub (l ++ r) = true.
Proof.
  induction sub as [|x sub IH]; intros [|y l] r H; simpl in *;
    try reflexivity; try discriminate.
  apply andb_true_iff in H as [Hxy H]. rewrite Hxy. simpl. auto.
Qed.

Lemma starts_with_app_inv sub : forall l r,
  (length sub <= length l)%nat ->
  starts_with sub (l ++ r) = true -> starts_with sub l = true.
Proof.
  induction sub as [|x sub IH]; intros [|y l] r Hlen H; simpl in *;
    try reflexivity; try lia.
  apply andb_true_iff in H as [Hxy H]. rewrite Hxy. simpl.
  apply (IH l r); [lia | assumption].
Qed.

Lemma find_bound sub : forall l i,
  find sub l = Some i -> (i + length sub <= length l)%nat.
Proof.
  induction l as [|y l IH]; intros i H; simpl in H.
  - destruct (starts_with sub []) eqn:Hs; [|discriminate].
    inversion H; subst. apply starts_with_length in Hs. simpl in *. lia.
  - destruct (starts_with sub (y :: l)) eqn:Hs.
    + inversion H; subst. apply starts_with_length in Hs. simpl in *. lia.
    + destruct (find sub l) as [j|] eqn:Hf; [|discriminate].
      inversion H; subst. specialize (IH j eq_refl). simpl. lia.
Qed.

Lemma find_app sub : forall l r i,
  find sub l = Some i -> find sub (l ++ r) = Some i.
Proof.
  induction l as [|y l IH]; intros r i H.
  - simpl in H. destruct (starts_with sub []) eqn:Hs; [|discriminate].
    inversion H; subst. destruct sub; [|discriminate].
    destruct r; reflexivity.
  - pose proof (find_bound sub _ _ H) as Hb.
    simpl in H. simpl app. cbn [find].
    destruct (starts_with sub (y :: l)) eqn:Hs.
    + change (y :: l ++ r) with ((y :: l) ++ r).
      rewrite (starts_with_app sub _ r Hs). assumption.
    + destruct (find sub l) as [j|] eqn:Hf; [|discriminate].
      inversion H; subst.
      destruct (starts_with sub (y :: l ++ r)) eqn:Hs'.
      * change (y :: l ++ r) with ((y :: l) ++ r) in Hs'.
        apply starts_with_app_inv in Hs'; [congruence | lia].
      * rewrite (IH r j eq_refl). reflexivity.
Qed.

(** A message that parses spans at least the separator and at most the
    whole input; the parser never returns a pair without a message. *)
Lemma parse_message_consumed_range data message consumed :
  parse_message data = Returns message consumed ->
  (exists m, message = Some m) /\ 0 < consumed <= len data.
Proof.
  unfold parse_message.
  destruct (find separator data) as [idx|] eqn:Hf; [|discriminate].
  apply find_bound in Hf. simpl in Hf.
  destruct (parse_head (take idx data)) as [e|[[[m u] v] hs]]; [discriminate|].
  destruct (hs !! "content-length") as [value|].
  - destruct (decimal_value value) as [n|]; [|discriminate].
    destruct (length (drop (idx + 4) data) <? n)%nat eqn:Hn; [discriminate|].
    apply Nat.ltb_ge in Hn. rewrite length_drop in Hn.
    intros H; inversion H; subst. split; [eauto|]. unfold len. lia.
  - intros H; inversion H; subst. split; [eauto|]. unfold len. lia.
Qed.

(** Bytes that follow a complete message do not change how it parses. *)
Lemma parse_message_app A B message consumed :
  parse_message A = Returns message consumed ->
  parse_message (A ++ B) = Returns message consumed.
Proof.
  unfold parse_message.
  destruct (find separator A) as [idx|] eqn:Hf; [|discriminate].
  rewrite (find_app _ _ B _ Hf).
  apply find_bound in Hf. simpl in Hf.
  rewrite (take_app_le A B idx) by lia.
  rewrite (drop_app_le A B (idx + 4)) by lia.
  destruct (parse_head (take idx A)) as [e|[[[m u] v] hs]]; [trivial|].
  destruct (hs !! "content-length") as [value|]; [|trivial].
  destruct (decimal_value value) as [n|]; [|trivial].
  destruct (length (drop (idx + 4) A) <? n)%nat eqn:Hn; [discriminate|].
  apply Nat.ltb_ge in Hn.
  assert (Hn' : (length (drop (idx + 4) A ++ B) <? n)%nat = false).
  { apply Nat.ltb_ge. rewrite length_app. lia. }
  rewrite Hn'. rewrite (take_app_le _ B n) by lia. trivial.
Qed.

End ParserFacts.

(** ** The buffer and the message processor *)

Lemma slice_from_suffix size (b : bytes) :
  exists pre, b = pre ++ DataProvider.slice_from size b.
Proof.
  unfold DataProvider.slice_from.
  eexists. symmetry. apply take_drop.
Qed.

Lemma slice_from_in_range size (b : bytes) :
  0 <= size <= len b ->
  DataProvider.slice_from size b = drop (Z.to_nat size) b.
Proof.
  intros H. unfold DataProvider.slice_from.
  destruct (size <? 0) eqn:Hneg; [apply Z.ltb_lt in Hneg; lia|].
  rewrite Z.min_l by lia. reflexivity.
Qed.

Lemma slice_from_prefix size (b : bytes) :
  exists pre, b = pre ++ DataProvider.slice_from size b /\
              (0 <= size <= len b -> len pre = size).
Proof.
  destruct (Z_le_dec 0 size) as [H0|H0]; [destruct (Z_le_dec size (len b)) as [H1|H1]|].
  - exists (take (Z.to_nat size) b). rewrite slice_from_in_range by lia.
    split; [symmetry; apply take_drop|].
    intros _. unfold len in *. rewrite length_take. lia.
  - destruct (slice_from_suffix size b) as [pre Hpre]. exists pre. split; [assumption | lia].
  - destruct (slice_from_suffix size b) as [pre Hpre]. exists pre. split; [assumption | lia].
Qed.

(** The three ways a call of [get_one_http_message] can go. *)
Lemma get_one_http_message_eq parse d :
  HTTPProcessor.get_one_http_message parse d =
  match parse (DataProvider.data d) with
  | Returns (Some m) consumed => (Normal (Some m), DataProvider.reduce_data d consumed)
  | Returns None _ => (Normal None, d)
  | Raises _ => (Normal None, d)
  end.
Proof.
  unfold HTTPProcessor.get_one_http_message, try_except, bind,
    HTTPProcessor.call_parse_message, HTTPProcessor.reduce_data, ret.
  destruct (parse (DataProvider.data d)) as [[m|] consumed|e]; reflexivity.
Qed.

(** The two slices of Python at the same index make up the sequence, and a
    count within the sequence cuts off that many bytes. *)
Lemma slice_to_slice_from size (b : bytes) :
  b = slice_to size b ++ DataProvider.slice_from size b.
Proof. unfold slice_to, DataProvider.slice_from. symmetry. apply take_drop. Qed.

Lemma slice_to_in_range size (b : bytes) :
  0 <= size <= len b ->
  slice_to size b = take (Z.to_nat size) b /\ len (slice_to size b) = size.
Proof.
  intros H. unfold slice_to.
  destruct (size <? 0) eqn:Hneg; [apply Z.ltb_lt in Hneg; lia|].
  rewrite Z.min_l by lia. split; [reflexivity|].
  unfold len in *. rewrite length_take. lia.
Qed.

(** C10. For every buffer and every behaviour of the parser on it,
    [get_one_http_message] returns normally.  When the parser returns a
    message with a consumed count, the message is returned and the consumed
    prefix [data[:consumed]] is taken off the front of the buffer, the rest
    staying as it was.  When the parser returns no message, or raises the
    incomplete signal, the invalid signal or any other exception, [None] is
    returned and the buffer is left as it was. *)
Theorem get_one_http_message_never_raises :
  forall (parse : bytes -> parse_outcome) (d : DataProvider.t),
  match parse (DataProvider.data d) with
  | Returns (Some m) consumed =>
      exists d',
        HTTPProcessor.get_one_http_message parse d = (Normal (Some m), d') /\
        DataProvider.data d
        = slice_to consumed (DataProvider.data d) ++ DataProvider.data d'
  | Returns None _ =>
      HTTPProcessor.get_one_http_message parse d = (Normal None, d)
  | Raises IncompleteMessageError =>
      HTTPProcessor.get_one_http_message parse d = (Normal None, d)
  | Raises InvalidMessageError =>
      HTTPProcessor.get_one_http_message parse d = (Normal None, d)
  | Raises (OtherException _) =>
      HTTPProcessor.get_one_http_message parse d = (Normal None, d)
  end.
Proof.
  intros parse d. rewrite get_one_http_message_eq.
  destruct (parse (DataProvider.data d)) as [[m|] consumed|[| |name]] eqn:Hp;
    try reflexivity.
  eexists. split; [reflexivity|].
  apply slice_to_slice_from.
Qed.

Lemma buffer_is_suffix_of_stream parse ops : forall d stream pre,
  stream = pre ++ DataProvider.data d ->
  exists pre',
    stream ++ received ops =
    pre' ++ DataProvider.data (fold_left (apply_op parse) ops d).
Proof.
  induction ops as [|[chunk|] ops IH]; intros d stream pre Hs; simpl.
  - exists pre. rewrite app_nil_r. assumption.
  - destruct (IH (DataProvider.set_data d chunk) (stream ++ chunk) pre) as [pre' H'].
    { simpl. rewrite Hs, <- app_assoc. reflexivity. }
    exists pre'. rewrite <- H'. rewrite <- app_assoc. reflexivity.
  - rewrite get_one_http_message_eq.
    destruct (parse (DataProvider.data d)) as [[m|] consumed|e]; simpl; eauto.
    destruct (slice_from_suffix consumed (DataProvider.data d)) as [cut Hcut].
    apply (IH _ stream (pre ++ cut)).
    change (DataProvider.data (DataProvider.reduce_data d consumed))
      with (DataProvider.slice_from consumed (DataProvider.data d)).
    rewrite <- app_assoc, <- Hcut. assumption.
Qed.

(** C8. The buffer changes only at its two ends: the setter appends the
    received bytes; a call of [get_one_http_message] leaves the buffer alone
    or removes from its front exactly the bytes the parser reports consumed;
    and so, after any sequence of these operations on a fresh buffer, the
    buffer is a tail of the received bytes, in their order of arrival. *)
Theorem buffer_changes_only_at_the_ends :
  forall parse : bytes -> parse_outcome,
  counts_bytes parse ->
  (forall d chunk,
     DataProvider.data (DataProvider.set_data d chunk) = DataProvider.data d ++ chunk) /\
  (forall d,
     let d' := snd (HTTPProcessor.get_one_http_message parse d) in
     d' = d \/
     exists m consumed pre,
       parse (DataProvider.data d) = Returns (Some m) consumed /\
       DataProvider.data d = pre ++ DataProvider.data d' /\
       len pre = consumed) /\
  (forall ops,
     exists pre,
       received ops =
       pre ++ DataProvider.data (fold_left (apply_op parse) ops DataProvider.__init__)).
Proof.
  intros parse Hcount. split; [reflexivity|]. split.
  - intros d. rewrite get_one_http_message_eq.
    destruct (parse (DataProvider.data d)) as [[m|] consumed|e] eqn:Hp; simpl; auto.
    right.
    destruct (slice_from_prefix consumed (DataProvider.data d)) as (pre & Hpre & Hlen).
    exists m, consumed, pre. eauto.
  - intros ops.
    destruct (buffer_is_suffix_of_stream parse ops DataProvider.__init__ [] []) as [pre H].
    + reflexivity.
    + exists pre. exact H.
Qed.

(** C9. For complete requests [A] and [B] (each parses to its message and
    is consumed whole), the buffer [A ++ B] parses to the message of [A]
    with [len A] consumed, and the rest of the buffer after that count to
    the message of [B] with [len B] consumed; two calls of
    [get_one_http_message] on a buffer holding [A ++ B] give the two
    messages in turn and leave the buffer empty. *)
Theorem pipelined_requests :
  forall (A B : bytes) (mA mB : HTTPMessage),
  HTTPParser.parse_message A = Returns (Some mA) (len A) ->
  HTTPParser.parse_message B = Returns (Some mB) (len B) ->
  HTTPParser.parse_message (A ++ B) = Returns (Some mA) (len A) /\
  HTTPParser.parse_message (DataProvider.slice_from (len A) (A ++ B))
    = Returns (Some mB) (len B) /\
  exists d1 d2,
    HTTPProcessor.get_one_http_message HTTPParser.parse_message
      {| DataProvider._data := A ++ B |} = (Normal (Some mA), d1) /\
    HTTPProcessor.get_one_http_message HTTPParser.parse_message d1
      = (Normal (Some mB), d2) /\
    DataProvider.data d2 = [].
Proof.
  intros A B mA mB HA HB.
  assert (HAB : HTTPParser.parse_message (A ++ B) = Returns (Some mA) (len A))
    by (apply parse_message_app; assumption).
  assert (Hrest : DataProvider.slice_from (len A) (A ++ B) = B).
  { rewrite slice_from_in_range.
    - unfold len. rewrite Nat2Z.id. apply drop_app_length.
    - unfold len. rewrite length_app. lia. }
  assert (Hend : DataProvider.slice_from (len B) B = []).
  { rewrite slice_from_in_range by (unfold len; lia).
    unfold len. rewrite Nat2Z.id. apply drop_all. }
  split; [assumption|]. split; [rewrite Hrest; assumption|].
  exists {| DataProvider._data := B |}, {| DataProvider._data := [] |}.
  rewrite !get_one_http_message_eq.
  unfold DataProvider.data, DataProvider.reduce_data. cbn [DataProvider._data].
  rewrite HAB, HB, Hrest, Hend. auto.
Qed.

(** ** Responses *)

Lemma encode_app (a b : string) : encode (a +:+ b) = encode a ++ encode b.
Proof.
  unfold encode, list_byte_of_string.
  induction a as [|c a IH]; [reflexivity|].
  rewrite append_String. simpl. f_equal. exact IH.
Qed.

Lemma to_uint_not_Nil (n : nat) : Nat.to_uint n <> Decimal.Nil.
Proof.
  rewrite <- (Unsigned.of_to n) at 1. rewrite Unsigned.to_of.
  apply unorm_nonnil.
Qed.

(** The digits written for a length read back as that length. *)
Lemma decimal_value_str_of_nat (n : nat) : decimal_value (str_of_nat n) = Some n.
Proof.
  unfold decimal_value, str_of_nat.
  rewrite NilZero.usu by apply to_uint_not_Nil.
  rewrite Unsigned.of_to. reflexivity.
Qed.

Lemma contains_spec (sub s : string) :
  contains sub s = true <-> exists pre post, s = pre +:+ sub +:+ post.
Proof.
  induction s as [|c s IH].
  - cbn [contains]. rewrite orb_false_r, prefix_literal. split.
    + intros [rest Hr]. exists EmptyString, rest. exact Hr.
    + intros ([|c pre] & post & H); [|discriminate]. exists post. exact H.
  - cbn [contains]. rewrite orb_true_iff, prefix_literal, IH. split.
    + intros [[rest Hr] | (pre & post & H)].
      * exists EmptyString, rest. exact Hr.
      * exists (String c pre), post. rewrite append_String. congruence.
    + intros ([|c' pre] & post & H).
      * left. exists post. exact H.
      * right. exists pre, post. rewrite append_String in H. congruence.
Qed.

Lemma ok_payload_shape (content : bytes) (keep : bool) :
  is_200_response content
    (encode ((if keep
              then ok_headers content +:+ "Connection: keep-alive" +:+ CRLF
              else ok_headers content) +:+ CRLF) ++ content).
Proof.
  exists (str_of_nat (length content)), keep.
  split; [|apply decimal_value_str_of_nat].
  unfold response_200, ok_headers.
  destruct keep; rewrite !encode_app, <- !app_assoc; reflexivity.
Qed.

Lemma send_404_shape : exists payload, _send_404 = Sendall payload /\ is_404_response payload.
Proof.
  eexists. split; [reflexivity|].
  exists (str_of_nat (length msg_404)).
  split; [|apply decimal_value_str_of_nat].
  unfold response_404. rewrite !encode_app, <- !app_assoc. reflexivity.
Qed.

(** C7. Every 200 response is the status line, a Content-Length header
    whose number is the byte length of the body, the fixed Content-Type
    header, possibly the Connection: keep-alive header, the blank line and
    the body, which is the content of the file; every read failure produces
    the 404 response, of the same shape, with its fixed body. *)
Theorem responses_have_the_wire_format :
  forall (read_file : string -> option bytes) (locations : list (string * string))
         (request : HTTPMessage) (act : bool),
  match read_file (file_path locations (url request)) with
  | Some content =>
      Forall (is_200_response content) (sent (fst (Server.serve read_file locations request))) /\
      exists payload,
        sent (fst (HTTPSession.serve read_file locations request act)) = [payload] /\
        is_200_response content payload
  | None =>
      exists payload,
        is_404_response payload /\
        sent (fst (Server.serve read_file locations request)) = [payload] /\
        sent (fst (HTTPSession.serve read_file locations request act)) = [payload]
  end.
Proof.
  intros read_file locations request act.
  unfold Server.serve, HTTPSession.serve.
  destruct (read_file (file_path locations (url request))) as [content|].
  - split.
    + destruct (keep_alive request); simpl; [|constructor].
      constructor; [|constructor].
      apply (ok_payload_shape content true).
    + destruct (keep_alive request); simpl; eexists; (split; [reflexivity|]).
      * apply (ok_payload_shape content true).
      * apply (ok_payload_shape content false).
  - destruct send_404_shape as (payload & Heq & Hshape).
    exists payload. rewrite Heq. simpl. auto.
Qed.

(** ** The request loop *)

(** One iteration of the loop of [_handle_request], by what the parser does
    on the buffer. *)
Lemma handle_request_step parse read_file locations fuel (c : Server.conn) :
  Server._handle_request parse read_file locations (S fuel) c =
  match parse (DataProvider.data (Server.data_provider c)) with
  | Returns (Some request) consumed =>
      let c' := {| Server.data_provider :=
                     DataProvider.reduce_data (Server.data_provider c) consumed;
                   Server.trace :=
                     Server.trace c ++ fst (Server.serve read_file locations request) |} in
      match snd (Server.serve read_file locations request) with
      | Continue => Server._handle_request parse read_file locations fuel c'
      | Return => Some (Normal tt, c')
      end
  | _ => Some (Normal tt, c)
  end.
Proof.
  cbn [Server._handle_request]. rewrite get_one_http_message_eq.
  destruct c as [d tr]. cbn [Server.data_provider Server.trace].
  destruct (parse (DataProvider.data d)) as [[request|] consumed|e]; try reflexivity.
  destruct (Server.serve read_file locations request) as [evs [|]]; reflexivity.
Qed.

Lemma slice_from_length size (b : bytes) :
  0 <= size <= len b -> len (DataProvider.slice_from size b) = len b - size.
Proof.
  intros H. rewrite slice_from_in_range by assumption.
  unfold len in *. rewrite length_drop. lia.
Qed.

(** With a parser that makes progress the loop of [_handle_request] ends,
    normally, within as many iterations as the buffer has bytes, and one
    more. *)
Lemma handle_request_terminates parse read_file locations :
  makes_progress parse ->
  forall fuel (c : Server.conn),
    (length (DataProvider.data (Server.data_provider c)) < fuel)%nat ->
    exists c', Server._handle_request parse read_file locations fuel c
               = Some (Normal tt, c').
Proof.
  intros Hprog. induction fuel as [|fuel IH]; intros c Hlt; [lia|].
  rewrite handle_request_step.
  destruct (parse (DataProvider.data (Server.data_provider c)))
    as [[request|] consumed|e] eqn:Hp; eauto.
  cbv zeta.
  destruct (snd (Server.serve read_file locations request)); eauto.
  apply IH. cbn [Server.data_provider].
  specialize (Hprog _ _ _ Hp).
  pose proof (slice_from_length consumed (DataProvider.data (Server.data_provider c))) as Hl.
  unfold DataProvider.reduce_data, DataProvider.data in *. cbn [DataProvider._data].
  unfold len in *. lia.
Qed.

(** The blocking server on the request [GET /]: the response, then the
    close. *)
Lemma v1_responds_then_closes :
  HTTPSession.handle HTTPParser.parse_message site site_routes 2
    [get_root] HTTPSession.__init__
  = Some (Normal tt,
          {| HTTPSession.data_provider := {| DataProvider._data := [] |};
             HTTPSession.trace := [Sendall (response_200 "17" false page); Close];
             HTTPSession.active := false |}).
Proof. vm_compute. reflexivity. Qed.

Lemma sent_app (evs evs' : list event) : sent (evs ++ evs') = sent evs ++ sent evs'.
Proof.
  induction evs as [|[payload| |] evs IH]; simpl; congruence.
Qed.

(** Whatever [_handle_request] writes to the socket is a 200 response or
    the 404 response. *)
Lemma handle_request_sends_responses parse read_file locations :
  forall fuel (c : Server.conn) r c',
    Server._handle_request parse read_file locations fuel c = Some (r, c') ->
    exists evs,
      Server.trace c' = Server.trace c ++ evs /\
      Forall (fun payload =>
                is_404_response payload \/
                exists content, is_200_response content payload)
             (sent evs).
Proof.
  induction fuel as [|fuel IH]; intros c r c' H; [discriminate|].
  rewrite handle_request_step in H.
  assert (Hnone : Some (Normal tt, c) = Some (r, c') ->
                  exists evs, Server.trace c' = Server.trace c ++ evs /\
                    Forall (fun payload => is_404_response payload \/
                              exists content, is_200_response content payload) (sent evs)).
  { intros Heq. inversion Heq; subst. exists []. rewrite app_nil_r. split; [reflexivity | constructor]. }
  destruct (parse (DataProvider.data (Server.data_provider c)))
    as [[request|] consumed|e]; auto.
  cbv zeta in H.
  assert (Hserve : Forall (fun payload => is_404_response payload \/
                             exists content, is_200_response content payload)
                          (sent (fst (Server.serve read_file locations request)))).
  { unfold Server.serve.
    destruct (read_file (file_path locations (url request))) as [content|].
    - destruct (keep_alive request); simpl; constructor; [|constructor].
      right. exists content. apply (ok_payload_shape content true).
    - destruct send_404_shape as (payload & Heq & Hshape). rewrite Heq. simpl.
      constructor; [left; assumption | constructor]. }
  destruct (snd (Server.serve read_file locations request)).
  - apply IH in H as (evs & Ht & Hf). cbn [Server.trace] in Ht.
    exists (fst (Server.serve read_file locations request) ++ evs).
    rewrite Ht, <- app_assoc. split; [reflexivity|].
    rewrite sent_app. apply Forall_app. auto.
  - inversion H; subst. cbn [Server.trace]. eauto.
Qed.

(** C1 (the code departs from it). The request [GET /] without a
    Connection header arrives on a fresh connection of the selector-based
    server, the page being there: the socket is unregistered and closed and
    nothing has been sent. *)
Theorem v3_closes_without_sending :
  Server._service_connection HTTPParser.parse_message site site_routes 2
    (Some get_root) Server._accept_connection
  = Some (Normal tt,
          {| Server.data_provider := {| DataProvider._data := [] |};
             Server.trace := [Unregister; Close] |}).
Proof. vm_compute. reflexivity. Qed.

(** The same holds of every request that is not keep-alive and whose file
    can be read. *)
Lemma v3_close_branch_sends_nothing parse read_file locations fuel c request consumed content :
  parse (DataProvider.data (Server.data_provider c)) = Returns (Some request) consumed ->
  read_file (file_path locations (url request)) = Some content ->
  keep_alive request = false ->
  Server._handle_request parse read_file locations (S fuel) c =
  Some (Normal tt,
        {| Server.data_provider := DataProvider.reduce_data (Server.data_provider c) consumed;
           Server.trace := Server.trace c ++ [Unregister; Close] |}).
Proof.
  intros Hp Hr Hk. rewrite handle_request_step, Hp.
  unfold Server.serve. rewrite Hr, Hk. reflexivity.
Qed.

(** The blocking server sends the response before it closes, but goes on
    to serve what else is in the buffer after it has decided to close. *)
Lemma v1_serves_after_close_decision :
  exists first second,
    HTTPSession.handle HTTPParser.parse_message site site_routes 3
      [get_root ++ get_root] (HTTPSession.__init__)
    = Some (Normal tt,
            {| HTTPSession.data_provider := {| DataProvider._data := [] |};
               HTTPSession.trace := [Sendall first; Sendall second; Close];
               HTTPSession.active := false |}).
Proof. eexists _, _. vm_compute. reflexivity. Qed.

(** When the parser raises, of whatever kind the exception, the loop ends
    at once and the connection is as it was. *)
Lemma handle_request_parser_raises parse read_file locations fuel (c : Server.conn) e :
  parse (DataProvider.data (Server.data_provider c)) = Raises e ->
  Server._handle_request parse read_file locations (S fuel) c = Some (Normal tt, c).
Proof. intros Hp. rewrite handle_request_step, Hp. reflexivity. Qed.

(** C2, as corrected. When the parser raises [InvalidMessageError] on the
    buffer, [_handle_request] returns normally and leaves the connection as
    it was: nothing is sent, the socket is neither unregistered nor closed,
    and the bytes stay in the buffer. *)
Theorem invalid_message_is_ignored :
  forall parse read_file locations fuel (c : Server.conn),
  parse (DataProvider.data (Server.data_provider c)) = Raises InvalidMessageError ->
  Server._handle_request parse read_file locations (S fuel) c = Some (Normal tt, c).
Proof.
  intros parse read_file locations fuel c Hp.
  exact (handle_request_parser_raises parse read_file locations fuel c _ Hp).
Qed.

Lemma invalid_message_is_ignored_witness :
  HTTPParser.parse_message
    (DataProvider.data (Server.data_provider
       {| Server.data_provider := {| DataProvider._data := bad_request |};
          Server.trace := [] |}))
  = Raises InvalidMessageError /\
  Server._handle_request HTTPParser.parse_message site site_routes 1
    {| Server.data_provider := {| DataProvider._data := bad_request |};
       Server.trace := [] |}
  = Some (Normal tt,
          {| Server.data_provider := {| DataProvider._data := bad_request |};
             Server.trace := [] |}).
Proof.
  split.
  - vm_compute. reflexivity.
  - apply (invalid_message_is_ignored HTTPParser.parse_message site site_routes 0).
    vm_compute. reflexivity.
Defined.

(** C2 as stated fails: a malformed request arrives on a fresh connection;
    whatever the fuel, the step ends with the socket still registered and
    open. *)
Lemma invalid_message_leaves_socket_open :
  HTTPParser.parse_message bad_request = Raises InvalidMessageError /\
  ~ exists fuel o c',
      Server._service_connection HTTPParser.parse_message site site_routes fuel
        (Some bad_request) Server._accept_connection = Some (o, c') /\
      (In Unregister (Server.trace c') \/ In Close (Server.trace c')).
Proof.
  split; [vm_compute; reflexivity|].
  intros (fuel & o & c' & H & Hin).
  destruct fuel as [|fuel]; [discriminate|].
  change (Server._service_connection HTTPParser.parse_message site site_routes (S fuel)
            (Some bad_request) Server._accept_connection)
    with (Server._handle_request HTTPParser.parse_message site site_routes (S fuel)
            {| Server.data_provider := {| DataProvider._data := bad_request |};
               Server.trace := [] |}) in H.
  rewrite (handle_request_parser_raises _ _ _ _ _ InvalidMessageError) in H
    by (vm_compute; reflexivity).
  inversion H; subst. simpl in Hin. tauto.
Qed.

(** ** Keep-alive *)

Lemma keep_alive_spec request :
  keep_alive request = true <-> mentions_keep_alive request.
Proof. unfold keep_alive, mentions_keep_alive. apply contains_spec. Qed.

(** C3, as corrected. For a request whose file can be read, the
    selector-based server keeps the connection open exactly when the
    lower-cased value of the Connection header (empty when the header is
    absent) contains "keep-alive", and closes it otherwise; in the blocking
    server [active] is true after the request exactly when it was true
    before it and the value contains "keep-alive": a session that has
    decided to close is not opened again.  When the file cannot be read,
    the selector-based server closes the connection whatever the header,
    and the blocking server leaves [active] as it was. *)
Theorem keep_alive_is_a_substring_test :
  forall (read_file : string -> option bytes) (locations : list (string * string))
         (request : HTTPMessage),
  match read_file (file_path locations (url request)) with
  | Some _ =>
      (mentions_keep_alive request <->
       stays_open (Server.serve read_file locations request)) /\
      (~ mentions_keep_alive request <->
       closes (Server.serve read_file locations request)) /\
      (forall act : bool,
         snd (HTTPSession.serve read_file locations request act) = true <->
         act = true /\ mentions_keep_alive request)
  | None =>
      closes (Server.serve read_file locations request) /\
      forall act, snd (HTTPSession.serve read_file locations request act) = act
  end.
Proof.
  intros read_file locations request.
  unfold Server.serve, HTTPSession.serve, stays_open, closes.
  destruct (read_file (file_path locations (url request))) as [content|].
  - rewrite <- !keep_alive_spec.
    destruct (keep_alive request) eqn:Hk; cbn [fst snd].
    + split; [|split].
      * split; [intros _|reflexivity].
        split; [reflexivity|]. split; intros [H|[]]; discriminate H.
      * split; [congruence | intros [H _]; discriminate H].
      * intros act. simpl.
        split; [intros H; split; [exact H | apply keep_alive_spec; exact Hk]|].
        intros [H _]. exact H.
    + split; [|split].
      * split; [discriminate | intros [H _]; discriminate H].
      * split; [intros _|discriminate].
        split; [reflexivity | exists []; reflexivity].
      * intros act. simpl. split; [discriminate|].
        intros [_ H]. apply keep_alive_spec in H. congruence.
  - simpl. split; [|reflexivity]. split; [reflexivity|].
    exists [_send_404]. reflexivity.
Qed.

Lemma keep_alive_is_a_substring_test_witness :
  (mentions_keep_alive (with_connection "/index.html" "Keep-Alive, Upgrade") <->
   stays_open (Server.serve site site_routes
                 (with_connection "/index.html" "Keep-Alive, Upgrade"))) /\
  (~ mentions_keep_alive (with_connection "/index.html" "Keep-Alive, Upgrade") <->
   closes (Server.serve site site_routes
             (with_connection "/index.html" "Keep-Alive, Upgrade"))) /\
  (forall act : bool,
     snd (HTTPSession.serve site site_routes
            (with_connection "/index.html" "Keep-Alive, Upgrade") act) = true <->
     act = true /\
     mentions_keep_alive (with_connection "/index.html" "Keep-Alive, Upgrade")).
Proof.
  exact (keep_alive_is_a_substring_test site site_routes
           (with_connection "/index.html" "Keep-Alive, Upgrade")).
Defined.

(** C3 as stated fails: a Connection value that is not "keep-alive" in any
    letter case, but contains it, keeps the connection open; in the
    selector-based server a keep-alive request for a missing file closes
    it; and in the blocking server a keep-alive request does not keep open
    a session that an earlier request of the same batch has set to
    close. *)
Lemma other_connection_value_keeps_open :
  lower (connection_value (with_connection "/index.html" "Keep-Alive, Upgrade"))
    <> "keep-alive" /\
  snd (Server.serve site site_routes
         (with_connection "/index.html" "Keep-Alive, Upgrade")) = Continue /\
  snd (HTTPSession.serve site site_routes
         (with_connection "/index.html" "Keep-Alive, Upgrade") true) = true /\
  lower (connection_value (with_connection "/missing" "keep-alive")) = "keep-alive" /\
  Server.serve site site_routes (with_connection "/missing" "keep-alive")
    = ([_send_404; Unregister; Close], Return) /\
  lower (connection_value (with_connection "/index.html" "keep-alive")) = "keep-alive" /\
  snd (HTTPSession.serve site site_routes
         (with_connection "/index.html" "keep-alive") false) = false.
Proof.
  split; [vm_compute; discriminate|].
  repeat split; vm_compute; reflexivity.
Qed.

(** ** Requests for "/" and unmatched routes *)

(** C5, as corrected. A request whose path is exactly "/" is served from
    the file "html/index.html": the path becomes "/index.html" and the root
    is the fixed directory "html", the routes not being consulted, so that
    both servers answer as they would with no routes at all. *)
Theorem root_path_uses_the_default_root :
  forall (read_file : string -> option bytes) (locations : list (string * string))
         (request : HTTPMessage),
  url request = "/" ->
  resolve locations (url request) = (Some "html", "/index.html") /\
  file_path locations (url request) = "html/index.html" /\
  Server.serve read_file locations request = Server.serve read_file [] request /\
  forall act,
    HTTPSession.serve read_file locations request act
    = HTTPSession.serve read_file [] request act.
Proof.
  intros read_file locations request Hurl.
  unfold Server.serve, HTTPSession.serve, file_path, resolve.
  rewrite Hurl. simpl. auto.
Qed.

Lemma root_path_uses_the_default_root_witness :
  url (with_connection "/" "close") = "/" /\
  resolve [("/", "www")] (url (with_connection "/" "close"))
    = (Some "html", "/index.html") /\
  file_path [("/", "www")] (url (with_connection "/" "close")) = "html/index.html" /\
  Server.serve site [("/", "www")] (with_connection "/" "close")
    = Server.serve site [] (with_connection "/" "close") /\
  forall act,
    HTTPSession.serve site [("/", "www")] (with_connection "/" "close") act
    = HTTPSession.serve site [] (with_connection "/" "close") act.
Proof.
  split; [reflexivity|].
  apply (root_path_uses_the_default_root site [("/", "www")]
           (with_connection "/" "close")).
  reflexivity.
Defined.

(** C5 as stated fails: the route "/" -> "www" matches the rewritten path
    "/index.html", and still the file is looked up under "html". *)
Lemma root_path_ignores_matching_route :
  RouteMatcher.match_location [("/", "www")] "/index.html" = Some "www" /\
  file_path [("/", "www")] "/" = "html/index.html" /\
  file_path [("/", "www")] "/" <> "www/index.html".
Proof.
  split; [reflexivity|]. split; [reflexivity|]. vm_compute. discriminate.
Qed.

(** Any other path takes its root from the routes. *)
Lemma other_paths_use_the_routes locations u :
  u <> "/" ->
  resolve locations u = (RouteMatcher.match_location locations u, u).
Proof.
  intros Hne. unfold resolve.
  destruct (String.eqb_spec u "/"); [contradiction | reflexivity].
Qed.

(** C6 (the code departs from it). No route matches "/x", the root is
    Python's [None], and the file path is "None/x": when there is such a
    file it is served with status 200, no 404 is sent. *)
Theorem unmatched_route_reads_None_directory :
  RouteMatcher.match_location [("/api", "html")] "/x" = None /\
  file_path [("/api", "html")] "/x" = "None/x" /\
  exists payload,
    Server.serve none_site [("/api", "html")] (with_connection "/x" "keep-alive")
      = ([Sendall payload], Continue) /\
    HTTPSession.serve none_site [("/api", "html")] (with_connection "/x" "keep-alive") true
      = ([Sendall payload], true) /\
    is_200_response (encode "stray") payload.
Proof.
  split; [reflexivity|]. split; [reflexivity|].
  eexists. split; [vm_compute; reflexivity|]. split; [vm_compute; reflexivity|].
  exists "5", true. split; vm_compute; reflexivity.
Qed.

(** Without such a file, an unmatched route does end in the 404 response. *)
Lemma unmatched_route_404 read_file locations request :
  url request <> "/" ->
  RouteMatcher.match_location locations (url request) = None ->
  read_file ("None" +:+ url request) = None ->
  Server.serve read_file locations request = ([_send_404; Unregister; Close], Return) /\
  forall act, HTTPSession.serve read_file locations request act = ([_send_404], act).
Proof.
  intros Hne Hm Hr.
  unfold Server.serve, HTTPSession.serve, file_path.
  rewrite other_paths_use_the_routes by assumption.
  rewrite Hm. simpl. rewrite Hr. auto.
Qed.

(** ** The pipelined requests of the parser's tests *)

Lemma first_request_parses :
  HTTPParser.parse_message first_request = Returns (Some first_message) (len first_request).
Proof. vm_compute. reflexivity. Qed.

Lemma second_request_parses :
  HTTPParser.parse_message second_request = Returns (Some second_message) (len second_request).
Proof. vm_compute. reflexivity. Qed.

Lemma pipelined_requests_witness :
  HTTPParser.parse_message first_request
    = Returns (Some first_message) (len first_request) /\
  HTTPParser.parse_message second_request
    = Returns (Some second_message) (len second_request) /\
  HTTPParser.parse_message (first_request ++ second_request)
    = Returns (Some first_message) (len first_request) /\
  HTTPParser.parse_message
    (DataProvider.slice_from (len first_request) (first_request ++ second_request))
    = Returns (Some second_message) (len second_request) /\
  exists d1 d2,
    HTTPProcessor.get_one_http_message HTTPParser.parse_message
      {| DataProvider._data := first_request ++ second_request |}
      = (Normal (Some first_message), d1) /\
    HTTPProcessor.get_one_http_message HTTPParser.parse_message d1
      = (Normal (Some second_message), d2) /\
    DataProvider.data d2 = [].
Proof.
  split; [vm_compute; reflexivity|].
  split; [vm_compute; reflexivity|].
  apply (pipelined_requests first_request second_request first_message second_message);
    vm_compute; reflexivity.
Defined.

Lemma parse_message_counts_bytes : counts_bytes HTTPParser.parse_message.
Proof.
  intros data m consumed H.
  apply parse_message_consumed_range in H as [_ H]. lia.
Qed.

Lemma buffer_changes_only_at_the_ends_witness :
  counts_bytes HTTPParser.parse_message /\
  (forall d chunk,
     DataProvider.data (DataProvider.set_data d chunk) = DataProvider.data d ++ chunk) /\
  (forall d,
     let d' := snd (HTTPProcessor.get_one_http_message HTTPParser.parse_message d) in
     d' = d \/
     exists m consumed pre,
       HTTPParser.parse_message (DataProvider.data d) = Returns (Some m) consumed /\
       DataProvider.data d = pre ++ DataProvider.data d' /\
       len pre = consumed) /\
  (forall ops,
     exists pre,
       received ops =
       pre ++ DataProvider.data
                (fold_left (apply_op HTTPParser.parse_message) ops DataProvider.__init__)).
Proof.
  split; [exact parse_message_counts_bytes|].
  apply (buffer_changes_only_at_the_ends HTTPParser.parse_message).
  exact parse_message_counts_bytes.
Defined.

(** * Further properties *)

(** ** Routes in any order *)

(** X1. When [match_location] gives a root, it is the root of an entry
    whose prefix is a literal prefix of the path and strictly longer than
    every other prefix that matches: among the items of a dictionary there
    are no ties. *)
Theorem match_location_no_ties :
  forall (locations : list (string * string)) (uri root : string),
  RouteMatcher.match_location locations uri = Some root ->
  exists p, In (p, root) locations /\ literal_prefix p uri /\
    forall p' r', In (p', r') locations -> literal_prefix p' uri ->
                  p' <> p -> str_len p' < str_len p.
Proof.
  intros locations uri root H.
  exact (match_location_strict locations uri root H).
Qed.

Lemma match_location_no_ties_witness :
  RouteMatcher.match_location [("/", "html"); ("/api", "api")] "/api/users" = Some "api" /\
  exists p, In (p, "api") [("/", "html"); ("/api", "api")] /\
    literal_prefix p "/api/users" /\
    forall p' r', In (p', r') [("/", "html"); ("/api", "api")] ->
                  literal_prefix p' "/api/users" ->
                  p' <> p -> str_len p' < str_len p.
Proof.
  split; [reflexivity|].
  apply (match_location_no_ties [("/", "html"); ("/api", "api")] "/api/users" "api").
  reflexivity.
Defined.

Lemma NoDup_keys_functional {A B} (l : list (A * B)) k v v' :
  NoDup (map fst l) -> In (k, v) l -> In (k, v') l -> v = v'.
Proof.
  induction l as [|[k0 v0] l IH]; intros Hnd Hin Hin'; [destruct Hin|].
  simpl in Hnd. inversion Hnd as [|? ? Hnotin Hnd']; subst.
  assert (Hkey : forall w, In (k0, w) l -> False).
  { intros w Hw. apply Hnotin. apply list_elem_of_In.
    apply (in_map fst) in Hw. exact Hw. }
  destruct Hin as [Heq|Hin], Hin' as [Heq'|Hin'].
  - congruence.
  - inversion Heq; subst. destruct (Hkey _ Hin').
  - inversion Heq'; subst. destruct (Hkey _ Hin).
  - eauto.
Qed.

Lemma match_location_None locations uri :
  RouteMatcher.match_location locations uri = None <->
  forall p r, In (p, r) locations -> ~ literal_prefix p uri.
Proof.
  pose proof (match_location_choice locations uri) as H.
  destruct (RouteMatcher.match_location locations uri) as [root|]; simpl in H.
  - split; [discriminate|]. intros Hnone.
    destruct H as (l1 & p & l2 & -> & Hp & _).
    destruct (Hnone p root); [|assumption].
    apply in_or_app. right. left. reflexivity.
  - split; auto.
Qed.

(** X2. For routes with distinct prefixes, as the items of a dictionary
    are, the resolution of a path does not depend on the order of the
    routes. *)
Theorem match_location_order_independent :
  forall (l1 l2 : list (string * string)) (uri : string),
  NoDup (map fst l1) ->
  Permutation l1 l2 ->
  RouteMatcher.match_location l1 uri = RouteMatcher.match_location l2 uri.
Proof.
  intros l1 l2 uri Hnd Hperm.
  destruct (RouteMatcher.match_location l1 uri) as [root|] eqn:H1.
  - destruct (match_location_strict _ _ _ H1) as (p & Hin & Hp & Hmax).
    destruct (RouteMatcher.match_location l2 uri) as [root'|] eqn:H2.
    + destruct (match_location_strict _ _ _ H2) as (p' & Hin' & Hp' & Hmax').
      apply (Permutation_in _ (Permutation_sym Hperm)) in Hin'.
      destruct (string_dec p' p) as [->|Hne].
      * f_equal. apply (NoDup_keys_functional l1 p); assumption.
      * specialize (Hmax _ _ Hin' Hp' Hne).
        apply (Permutation_in _ Hperm) in Hin.
        assert (Hne' : p <> p') by congruence.
        specialize (Hmax' _ _ Hin Hp Hne'). lia.
    + pose proof (proj1 (match_location_None l2 uri) H2) as Hnone.
      destruct (Hnone p root); [|assumption].
      apply (Permutation_in _ Hperm). assumption.
  - symmetry. apply match_location_None. intros p r Hin.
    apply (proj1 (match_location_None l1 uri) H1 p r).
    apply (Permutation_in _ (Permutation_sym Hperm)). assumption.
Qed.

Lemma match_location_order_independent_witness :
  NoDup (map fst [("/", "html"); ("/api", "api")]) /\
  Permutation [("/", "html"); ("/api", "api")] [("/api", "api"); ("/", "html")] /\
  RouteMatcher.match_location [("/", "html"); ("/api", "api")] "/api/users"
  = RouteMatcher.match_location [("/api", "api"); ("/", "html")] "/api/users".
Proof.
  assert (Hnd : NoDup (map fst [("/", "html"); ("/api", "api")])).
  { simpl. apply NoDup_cons_2; [|apply NoDup_singleton].
    rewrite list_elem_of_In. simpl. intros [H|[]]; discriminate H. }
  assert (Hperm : Permutation [("/", "html"); ("/api", "api")]
                              [("/api", "api"); ("/", "html")])
    by apply perm_swap.
  split; [exact Hnd|]. split; [exact Hperm|].
  exact (match_location_order_independent _ _ "/api/users" Hnd Hperm).
Defined.

(** ** Consuming from the buffer *)

Lemma slice_from_nonneg size (b : bytes) :
  0 <= size -> DataProvider.slice_from size b = drop (Z.to_nat size) b.
Proof.
  intros H. unfold DataProvider.slice_from.
  destruct (size <? 0) eqn:Hneg; [apply Z.ltb_lt in Hneg; lia|].
  destruct (Z_le_dec size (len b)) as [Hle|Hgt].
  - rewrite Z.min_l by lia. reflexivity.
  - rewrite Z.min_r by lia. unfold len in *.
    rewrite Nat2Z.id, drop_all. symmetry. apply drop_ge. lia.
Qed.

(** X3. Consuming [a] bytes and then [b] bytes is consuming [a + b] bytes,
    for counts that are not negative, also past the end of the buffer. *)
Theorem reduce_data_twice :
  forall (d : DataProvider.t) (a b : Z),
  0 <= a -> 0 <= b ->
  DataProvider.reduce_data (DataProvider.reduce_data d a) b
  = DataProvider.reduce_data d (a + b).
Proof.
  intros d a b Ha Hb. unfold DataProvider.reduce_data. cbn [DataProvider._data].
  f_equal. rewrite !slice_from_nonneg by lia.
  rewrite drop_drop. f_equal. lia.
Qed.

Lemma reduce_data_twice_witness :
  0 <= 3 /\ 0 <= 40 /\
  DataProvider.reduce_data
    (DataProvider.reduce_data {| DataProvider._data := get_root |} 3) 40
  = DataProvider.reduce_data {| DataProvider._data := get_root |} (3 + 40).
Proof.
  split; [lia|]. split; [lia|].
  apply (reduce_data_twice {| DataProvider._data := get_root |} 3 40); lia.
Defined.

(** X4. Bytes that arrive do not disturb what is consumed: for a count
    within the buffer, appending a chunk and then consuming gives the same
    buffer as consuming and then appending. *)
Theorem set_data_reduce_data_commute :
  forall (d : DataProvider.t) (chunk : bytes) (n : Z),
  0 <= n <= len (DataProvider.data d) ->
  DataProvider.reduce_data (DataProvider.set_data d chunk) n
  = DataProvider.set_data (DataProvider.reduce_data d n) chunk.
Proof.
  intros [b] chunk n Hn.
  unfold DataProvider.reduce_data, DataProvider.set_data, DataProvider.data in *.
  cbn [DataProvider._data] in *. f_equal.
  rewrite !slice_from_nonneg by lia.
  apply drop_app_le. unfold len in Hn. lia.
Qed.

Lemma set_data_reduce_data_commute_witness :
  0 <= 5 <= len (DataProvider.data {| DataProvider._data := get_root |}) /\
  DataProvider.reduce_data
    (DataProvider.set_data {| DataProvider._data := get_root |} bad_request) 5
  = DataProvider.set_data
      (DataProvider.reduce_data {| DataProvider._data := get_root |} 5) bad_request.
Proof.
  assert (H : 0 <= 5 <= len (DataProvider.data {| DataProvider._data := get_root |}))
    by (vm_compute; split; discriminate).
  split; [exact H|].
  exact (set_data_reduce_data_commute _ bad_request 5 H).
Defined.

(** X5. [reduce_data] accepts any integer and never lengthens the buffer:
    what is left is a tail of the buffer, of [len - size] bytes for a count
    from 0 to [len], empty for a count past the end; a negative count [-k]
    keeps the last [k] bytes, the whole buffer when [k] is [len] or more. *)
Theorem reduce_data_any_count :
  forall (d : DataProvider.t) (size : Z),
  (exists pre,
     DataProvider.data d = pre ++ DataProvider.data (DataProvider.reduce_data d size)) /\
  len (DataProvider.data (DataProvider.reduce_data d size))
  = (if size <? 0
     then Z.min (len (DataProvider.data d)) (- size)
     else Z.max 0 (len (DataProvider.data d) - size)).
Proof.
  intros [b] size.
  unfold DataProvider.reduce_data, DataProvider.data. cbn [DataProvider._data].
  split; [apply slice_from_suffix|].
  unfold DataProvider.slice_from, len. rewrite length_drop.
  destruct (size <? 0) eqn:Hneg.
  - apply Z.ltb_lt in Hneg. lia.
  - apply Z.ltb_ge in Hneg. lia.
Qed.

(** ** The loop of the selector-based server *)

Lemma parse_message_makes_progress : makes_progress HTTPParser.parse_message.
Proof.
  intros data m consumed H.
  apply parse_message_consumed_range in H as [_ H]. exact H.
Qed.

Lemma no_message_step parse read_file locations fuel (c : Server.conn) :
  no_message parse (DataProvider.data (Server.data_provider c)) ->
  Server._handle_request parse read_file locations (S fuel) c = Some (Normal tt, c).
Proof.
  intros Hno. rewrite handle_request_step.
  destruct (parse (DataProvider.data (Server.data_provider c)))
    as [[m|] consumed|e] eqn:Hp; try reflexivity.
  destruct (Hno _ _ Hp).
Qed.

(** X8. A request that arrives in two reads is served as if it had arrived
    in one: when the parser finds no message in the buffer extended by a
    first chunk, servicing that chunk changes nothing but the buffer, and
    servicing a second chunk after it gives what servicing the two chunks
    joined would have given. *)
Theorem service_connection_fragments :
  forall parse read_file locations fuel (c : Server.conn) (a b : bytes),
  a <> [] -> b <> [] ->
  no_message parse (DataProvider.data (Server.data_provider c) ++ a) ->
  exists c1,
    Server._service_connection parse read_file locations (S fuel) (Some a) c
      = Some (Normal tt, c1) /\
    Server.trace c1 = Server.trace c /\
    DataProvider.data (Server.data_provider c1)
      = DataProvider.data (Server.data_provider c) ++ a /\
    Server._service_connection parse read_file locations (S fuel) (Some b) c1
      = Server._service_connection parse read_file locations (S fuel) (Some (a ++ b)) c.
Proof.
  intros parse read_file locations fuel c [|x a] [|y b] Ha Hb Hno; try congruence.
  eexists. split.
  - unfold Server._service_connection. apply no_message_step. exact Hno.
  - split; [reflexivity|]. split; [reflexivity|].
    unfold Server._service_connection. cbn [app Server.data_provider Server.trace].
    unfold DataProvider.set_data. cbn [DataProvider._data].
    rewrite <- app_assoc. reflexivity.
Qed.

Lemma service_connection_fragments_witness :
  take 10 get_root <> [] /\ drop 10 get_root <> [] /\
  no_message HTTPParser.parse_message
    (DataProvider.data (Server.data_provider (Server._accept_connection)) ++ take 10 get_root) /\
  exists c1,
    Server._service_connection HTTPParser.parse_message site site_routes 2
      (Some (take 10 get_root)) Server._accept_connection = Some (Normal tt, c1) /\
    Server.trace c1 = Server.trace Server._accept_connection /\
    DataProvider.data (Server.data_provider c1)
      = DataProvider.data (Server.data_provider Server._accept_connection) ++ take 10 get_root /\
    Server._service_connection HTTPParser.parse_message site site_routes 2
      (Some (drop 10 get_root)) c1
      = Server._service_connection HTTPParser.parse_message site site_routes 2
          (Some (take 10 get_root ++ drop 10 get_root)) Server._accept_connection.
Proof.
  assert (Ha : take 10 get_root <> []) by (vm_compute; discriminate).
  assert (Hb : drop 10 get_root <> []) by (vm_compute; discriminate).
  assert (Hno : no_message HTTPParser.parse_message
    (DataProvider.data (Server.data_provider (Server._accept_connection)) ++ take 10 get_root))
    by (intros m k; vm_compute; discriminate).
  split; [exact Ha|]. split; [exact Hb|]. split; [exact Hno|].
  exact (service_connection_fragments HTTPParser.parse_message site site_routes 1
           Server._accept_connection _ _ Ha Hb Hno).
Defined.

(** ** The loop of the selector-based server, with its route lookup *)

(** One iteration of the loop of [_handle_request], by what the parser does
    on the buffer and how the lookup goes. *)
Lemma lookup_handle_request_step parse read_file routes_lookup fuel (c : Server.conn) :
  Server_v3._handle_request parse read_file routes_lookup (S fuel) c =
  match parse (DataProvider.data (Server.data_provider c)) with
  | Returns (Some request) consumed =>
      let d := DataProvider.reduce_data (Server.data_provider c) consumed in
      match Server_v3.locate routes_lookup (url request) with
      | inl e => Some (Raised e, {| Server.data_provider := d;
                                    Server.trace := Server.trace c |})
      | inr (root, url) =>
          let r := Server_v3.respond read_file request (format_root root +:+ url) in
          let c' := {| Server.data_provider := d;
                       Server.trace := Server.trace c ++ fst r |} in
          match snd r with
          | Continue => Server_v3._handle_request parse read_file routes_lookup fuel c'
          | Return => Some (Normal tt, c')
          end
      end
  | _ => Some (Normal tt, c)
  end.
Proof.
  cbn [Server_v3._handle_request]. rewrite get_one_http_message_eq.
  destruct c as [d tr]. cbn [Server.data_provider Server.trace].
  destruct (parse (DataProvider.data d)) as [[request|] consumed|e]; try reflexivity.
  cbv zeta.
  destruct (Server_v3.locate routes_lookup (url request)) as [e|[root u]]; [reflexivity|].
  destruct (Server_v3.respond read_file request (format_root root +:+ u)) as [evs [|]];
    reflexivity.
Qed.

(** The lookup fails only for a path other than "/", and then with the
    exception of the route expression. *)
Lemma locate_cases routes_lookup request_url :
  (exists e, Server_v3.locate routes_lookup request_url = inl e /\
             routes_lookup = inl e /\ request_url <> "/") \/
  (exists root u, Server_v3.locate routes_lookup request_url = inr (root, u)).
Proof.
  unfold Server_v3.locate.
  destruct (String.eqb request_url "/") eqn:Hu; [right; eauto|].
  destruct routes_lookup as [e|locations]; [|right; eauto].
  left. exists e. split; [reflexivity|]. split; [reflexivity|].
  apply String.eqb_neq. exact Hu.
Qed.


(** When the lookup gives the route map, the loop is the loop of
    [Server._handle_request] for that map. *)
Lemma lookup_returns_handle_request parse read_file locations :
  forall fuel (c : Server.conn),
  Server_v3._handle_request parse read_file (inr locations) fuel c
  = Server._handle_request parse read_file locations fuel c.
Proof.
  induction fuel as [|fuel IH]; intros c; [reflexivity|].
  rewrite lookup_handle_request_step, handle_request_step.
  destruct (parse (DataProvider.data (Server.data_provider c)))
    as [[request|] consumed|e]; try reflexivity.
  cbv zeta.
  assert (Hloc : Server_v3.locate (inr locations) (url request)
                 = inr (resolve locations (url request))).
  { unfold Server_v3.locate, resolve.
    destruct (String.eqb (url request) "/"); reflexivity. }
  rewrite Hloc.
  assert (Hs : Server.serve read_file locations request
               = Server_v3.respond read_file request
                   (format_root (fst (resolve locations (url request)))
                    +:+ snd (resolve locations (url request)))).
  { unfold Server.serve, Server_v3.respond, file_path.
    destruct (resolve locations (url request)); reflexivity. }
  rewrite Hs.
  destruct (resolve locations (url request)) as [root u]. cbn [fst snd].
  destruct (snd (Server_v3.respond read_file request (format_root root +:+ u)));
    [apply IH | reflexivity].
Qed.

Lemma lookup_returns_service_connection parse read_file locations fuel received
    (c : Server.conn) :
  Server_v3._service_connection parse read_file (inr locations) fuel received c
  = Server._service_connection parse read_file locations fuel received c.
Proof.
  unfold Server_v3._service_connection, Server._service_connection.
  destruct received as [[|b chunk]|]; try reflexivity.
  apply lookup_returns_handle_request.
Qed.

(** X6. With a parser that consumes at least one byte for every message it
    returns, [_handle_request] ends within one more iteration than the
    buffer has bytes; it ends normally, or with the exception that the
    route lookup raises. *)
Theorem handle_request_ends :
  forall parse read_file routes_lookup,
  makes_progress parse ->
  forall fuel (c : Server.conn),
    (length (DataProvider.data (Server.data_provider c)) < fuel)%nat ->
    exists r c',
      Server_v3._handle_request parse read_file routes_lookup fuel c = Some (r, c') /\
      (r = Normal tt \/ exists e, routes_lookup = inl e /\ r = Raised e).
Proof.
  intros parse read_file routes_lookup Hprog.
  induction fuel as [|fuel IH]; intros c Hlt; [lia|].
  rewrite lookup_handle_request_step.
  destruct (parse (DataProvider.data (Server.data_provider c)))
    as [[request|] consumed|e] eqn:Hp; eauto.
  cbv zeta.
  destruct (locate_cases routes_lookup (url request))
    as [(e & Hloc & Hlook & _) | (root & u & Hloc)]; rewrite Hloc.
  { eexists _, _. split; [reflexivity|]. right. eauto. }
  destruct (snd (Server_v3.respond read_file request (format_root root +:+ u))); eauto.
  apply IH. cbn [Server.data_provider].
  specialize (Hprog _ _ _ Hp).
  pose proof (slice_from_length consumed (DataProvider.data (Server.data_provider c))) as Hl.
  unfold DataProvider.reduce_data, DataProvider.data in *. cbn [DataProvider._data].
  unfold len in *. lia.
Qed.

Lemma handle_request_ends_witness :
  makes_progress HTTPParser.parse_message /\
  (length (DataProvider.data (Server.data_provider
     {| Server.data_provider := {| DataProvider._data := first_request ++ second_request |};
        Server.trace := [] |})) < 200)%nat /\
  exists r c',
    Server_v3._handle_request HTTPParser.parse_message site (inl TypeError) 200
      {| Server.data_provider := {| DataProvider._data := first_request ++ second_request |};
         Server.trace := [] |}
    = Some (r, c') /\
    (r = Normal tt \/ exists e, @inl exn (list (string * string)) TypeError = inl e /\ r = Raised e).
Proof.
  assert (Hlen : (length (DataProvider.data (Server.data_provider
     {| Server.data_provider := {| DataProvider._data := first_request ++ second_request |};
        Server.trace := [] |})) < 200)%nat) by (vm_compute; lia).
  split; [exact parse_message_makes_progress|]. split; [exact Hlen|].
  exact (handle_request_ends HTTPParser.parse_message site (inl TypeError)
           parse_message_makes_progress 200 _ Hlen).
Defined.



(** ** The loops of the blocking server, with their route lookup *)



(** When the lookup gives the route map, the [try] statement is reached
    with the path of [file_path]. *)
Lemma session_locate_returns locations request_url :
  Server_v1.locate (inr locations) request_url = inr (resolve locations request_url).
Proof.
  unfold Server_v1.locate, resolve.
  destruct (String.eqb request_url "/"); reflexivity.
Qed.



(** When the lookup gives the route map, the inner loop is the loop of
    [HTTPSession.drain] for that map. *)
Lemma lookup_returns_drain parse read_file locations :
  forall fuel (s : HTTPSession.session),
  Server_v1.drain parse read_file (inr locations) fuel s
  = HTTPSession.drain parse read_file locations fuel s.
Proof.
  induction fuel as [|fuel IH]; intros s; [reflexivity|].
  cbn [Server_v1.drain HTTPSession.drain].
  destruct (HTTPProcessor.get_one_http_message parse (HTTPSession.data_provider s))
    as [[[request|]|e] d]; try reflexivity.
  rewrite session_locate_returns.
  assert (Hs : HTTPSession.serve read_file locations request (HTTPSession.active s)
               = Server_v1.respond read_file request
                   (format_root (fst (resolve locations (url request)))
                    +:+ snd (resolve locations (url request)))
                   (HTTPSession.active s)).
  { unfold HTTPSession.serve, Server_v1.respond, file_path.
    destruct (resolve locations (url request)); reflexivity. }
  rewrite Hs. destruct (resolve locations (url request)) as [root u]. cbn [fst snd].
  destruct (Server_v1.respond read_file request (format_root root +:+ u)
              (HTTPSession.active s)) as [evs act].
  apply IH.
Qed.








(** The blocking server when the peer resets the connection after one
    request: the response is sent, the exception leaves [handle], and the
    connection is not closed. *)
Lemma test_reset_leaves_the_connection_open :
  exists payload s',
    Server_v1.handle HTTPParser.parse_message site (inr site_routes) 100
      [inr get_root_keep_alive; inl ConnectionResetError] HTTPSession.__init__
    = Some (Raised ConnectionResetError, s') /\
    HTTPSession.trace s' = [Sendall payload].
Proof. eexists _, _. split; vm_compute; reflexivity. Qed.

(** ** The lexer *)

Section LexerFacts.
Import SimpleConfigLexer.

Lemma append_assoc (a b c : string) : (a +:+ b) +:+ c = a +:+ (b +:+ c).
Proof.
  induction a as [|x a IH]; [reflexivity|].
  rewrite !append_String. f_equal. exact IH.
Qed.

Lemma append_length (a b : string) :
  String.length (a +:+ b) = (String.length a + String.length b)%nat.
Proof.
  induction a as [|x a IH]; [reflexivity|].
  rewrite append_String. simpl. f_equal. exact IH.
Qed.

Lemma span_spec cls s run rest :
  span cls s = (run, rest) ->
  s = run +:+ rest /\
  string_forall cls run = true /\
  match rest with String c _ => cls c = false | EmptyString => True end.
Proof.
  revert run rest. induction s as [|c s IH]; intros run rest H.
  - inversion H; subst. auto.
  - simpl in H. destruct (cls c) eqn:Hc.
    + destruct (span cls s) as [run' rest'] eqn:Hs. inversion H; subst.
      destruct (IH _ _ eq_refl) as (H1 & H2 & H3).
      rewrite append_String. simpl. rewrite Hc, H2. repeat split; congruence.
    + inversion H; subst. auto.
Qed.

(** A run of the class followed by a text that does not go on with the
    class is split between the two. *)
Lemma span_app cls run rest :
  string_forall cls run = true ->
  match rest with String c _ => cls c = false | EmptyString => True end ->
  span cls (run +:+ rest) = (run, rest).
Proof.
  intros Hrun Hrest. induction run as [|x run IH].
  - destruct rest as [|c rest]; [reflexivity|]. simpl. rewrite Hrest. reflexivity.
  - simpl in Hrun. apply andb_true_iff in Hrun as [Hx Hrun].
    rewrite append_String. simpl. rewrite Hx, (IH Hrun). reflexivity.
Qed.

Lemma rstrip_quotes_run run :
  string_forall not_quote run = true ->
  rstrip_quotes (run +:+ String "034" EmptyString) = run.
Proof.
  induction run as [|c run IH]; intros H; [reflexivity|].
  simpl in H. apply andb_true_iff in H as [Hc H].
  rewrite append_String. cbn [rstrip_quotes]. rewrite (IH H).
  unfold not_quote in Hc. apply negb_true_iff in Hc. rewrite Hc. reflexivity.
Qed.

(** Stripping the quotes of a quoted text gives what is between them. *)
Lemma strip_quotes_quoted run :
  string_forall not_quote run = true ->
  strip_quotes (String "034" (run +:+ String "034" EmptyString)) = run.
Proof.
  intros H. unfold strip_quotes. cbn [lstrip_quotes]. simpl Ascii.eqb. cbv iota.
  destruct run as [|c run]; [reflexivity|].
  pose proof H as H'. simpl in H'. apply andb_true_iff in H' as [Hc _].
  unfold not_quote in Hc. apply negb_true_iff in Hc.
  rewrite append_String. cbn [lstrip_quotes]. rewrite Hc.
  rewrite <- append_String. apply rstrip_quotes_run. exact H.
Qed.

(** What a match of the whole expression can be. *)
Lemma token_re_match_cases s kind value rest :
  token_re_match TOKEN_PATTERNS s = Some (kind, value, rest) ->
  (String.length rest < String.length s)%nat /\
  (kind = "COMMENT" \/ kind = "WHITESPACE" \/
   (kind = "LBRACE" /\ value = "{") \/
   (kind = "RBRACE" /\ value = "}") \/
   (kind = "SEMICOLON" /\ value = ";") \/
   (kind = "STRING" /\
    exists run, value = String "034" (run +:+ String "034" EmptyString) /\
                string_forall not_quote run = true) \/
   (kind = "WORD" /\ value <> EmptyString /\ string_forall word_char value = true)).
Proof.
  intros H. destruct s as [|c s]; [discriminate H|].
  unfold TOKEN_PATTERNS in H. cbn [token_re_match] in H.
  unfold re_comment in H. destruct (Ascii.eqb c "#") eqn:E1.
  { destruct (span dot s) as [run r] eqn:Hs. inversion H; subst.
    apply span_spec in Hs as (Hs & _). split; [|auto].
    rewrite Hs. cbn [String.length]. rewrite append_length. lia. }
  unfold re_char in H. destruct (Ascii.eqb c "{") eqn:E2.
  { inversion H; subst. apply Ascii.eqb_eq in E2. subst.
    split; [simpl; lia | auto 10]. }
  destruct (Ascii.eqb c "}") eqn:E3.
  { inversion H; subst. apply Ascii.eqb_eq in E3. subst.
    split; [simpl; lia | auto 10]. }
  destruct (Ascii.eqb c ";") eqn:E4.
  { inversion H; subst. apply Ascii.eqb_eq in E4. subst.
    split; [simpl; lia | auto 10]. }
  unfold re_string in H. destruct (Ascii.eqb c "034") eqn:E5.
  { apply Ascii.eqb_eq in E5. subst c.
    destruct (span not_quote s) as [run r] eqn:Hs.
    apply span_spec in Hs as (Hs & Hrun & Hq).
    destruct r as [|q r].
    - unfold re_plus in H. simpl in H. discriminate H.
    - inversion H; subst. unfold not_quote in Hq. apply negb_false_iff in Hq.
      apply Ascii.eqb_eq in Hq. subst q.
      split; [cbn [String.length]; rewrite append_length; simpl; lia|].
      do 5 right. left. split; [reflexivity|]. exists run. auto. }
  unfold re_plus in H.
  destruct (span word_char (String c s)) as [run r] eqn:Hw.
  apply span_spec in Hw as (Hw & Hrun & _).
  destruct run as [|x run].
  - destruct (span space_char (String c s)) as [run2 r2] eqn:Hsp.
    apply span_spec in Hsp as (Hsp & _ & _).
    destruct run2 as [|y run2]; [discriminate H|].
    inversion H; subst. split; [|auto].
    rewrite Hsp, append_length. simpl. lia.
  - inversion H; subst. split.
    + rewrite Hw, append_length. simpl. lia.
    + do 6 right. split; [reflexivity|]. split; [discriminate | assumption].
Qed.

Lemma tokenize_from_total fuel : forall s,
  (String.length s <= fuel)%nat -> exists r, tokenize_from fuel s = Some r.
Proof.
  induction fuel as [|fuel IH]; intros [|c s] Hlen; simpl in Hlen; try lia;
    try (eexists; reflexivity).
  cbn [tokenize_from].
  destruct (token_re_match TOKEN_PATTERNS (String c s)) as [[[kind value] rest]|] eqn:Hm;
    [|eexists; reflexivity].
  apply token_re_match_cases in Hm as [Hlt _]. simpl in Hlt.
  destruct (IH rest) as [[e|tokens] Hr]; [lia| |]; rewrite Hr.
  - eexists; reflexivity.
  - destruct (String.eqb kind "WHITESPACE" || String.eqb kind "COMMENT");
      [|destruct (String.eqb kind "STRING")]; eexists; reflexivity.
Qed.

Lemma tokenize_from_tokens_ok fuel : forall s tokens,
  tokenize_from fuel s = Some (inr tokens) ->
  Forall (fun t => token_ok t = true) tokens.
Proof.
  induction fuel as [|fuel IH]; intros [|c s] tokens H; cbn [tokenize_from] in H;
    try discriminate H; try (inversion H; constructor).
  destruct (token_re_match TOKEN_PATTERNS (String c s)) as [[[kind value] rest]|] eqn:Hm;
    [|discriminate H].
  apply token_re_match_cases in Hm as [_ Hm].
  destruct (tokenize_from fuel rest) as [[e|tokens']|] eqn:Hr; try discriminate H.
  apply IH in Hr.
  destruct Hm as [-> | [-> | [[-> ->] | [[-> ->] | [[-> ->] | [(-> & run & -> & Hrun) | (-> & Hne & Hw)]]]]]];
    simpl in H; try (inversion H; subst; assumption);
    try (inversion H; subst; constructor; [reflexivity | assumption]).
  - rewrite strip_quotes_quoted in H by assumption.
    inversion H; subst. constructor; [|assumption].
    unfold token_ok. rewrite Hrun. reflexivity.
  - inversion H; subst. constructor; [|assumption].
    unfold token_ok. rewrite Hw.
    destruct value; [congruence | reflexivity].
Qed.

End LexerFacts.
Section LexerRoundTrip.
Import SimpleConfigLexer.

(** A word character is none of the characters that start another kind of
    token. *)
Lemma word_char_plain c :
  word_char c = true ->
  Ascii.eqb c "#" = false /\ Ascii.eqb c "{" = false /\ Ascii.eqb c "}" = false /\
  Ascii.eqb c ";" = false /\ Ascii.eqb c "034" = false /\ space_char c = false.
Proof.
  destruct c as [[] [] [] [] [] [] [] []]; vm_compute; intros H;
    first [discriminate H | repeat split].
Qed.

Lemma token_ok_cases kind value :
  token_ok (kind, value) = true ->
  (kind = "LBRACE" /\ value = "{") \/
  (kind = "RBRACE" /\ value = "}") \/
  (kind = "SEMICOLON" /\ value = ";") \/
  (kind = "WORD" /\ exists c w, value = String c w /\ word_char c = true /\
                                string_forall word_char w = true) \/
  (kind = "STRING" /\ string_forall not_quote value = true).
Proof.
  unfold token_ok. rewrite !orb_true_iff, !andb_true_iff, !String.eqb_eq, negb_true_iff.
  intros [[[[[-> ->] | [-> ->]] | [-> ->]] | [[-> Hne] Hw]] | [-> Hs]]; auto 10.
  right; right; right; left. split; [reflexivity|].
  destruct value as [|c w]; [discriminate Hne|].
  simpl in Hw. apply andb_true_iff in Hw as [Hc Hw]. eauto.
Qed.

(** The text of a token, followed by a space, is matched as that token. *)
Lemma token_re_match_token_text t rest :
  token_ok t = true ->
  token_re_match TOKEN_PATTERNS (token_text t +:+ String " " rest)
  = Some (fst t, token_text t, String " " rest).
Proof.
  destruct t as [kind value]. intros Hok.
  apply token_ok_cases in Hok
    as [[-> ->] | [[-> ->] | [[-> ->] | [(-> & c & w & -> & Hc & Hw) | [-> Hs]]]]];
    try reflexivity.
  - unfold token_text. cbn [fst snd]. simpl String.eqb. cbv iota.
    destruct (word_char_plain c Hc) as (E1 & E2 & E3 & E4 & E5 & E6).
    rewrite append_String.
    unfold TOKEN_PATTERNS. cbn [token_re_match].
    unfold re_comment, re_char, re_string. rewrite E1, E2, E3, E4, E5.
    unfold re_plus. rewrite <- append_String.
    rewrite span_app; [reflexivity | simpl; rewrite Hc, Hw; reflexivity | reflexivity].
  - unfold token_text. cbn [fst snd]. simpl String.eqb. cbv iota.
    rewrite append_String, append_assoc, append_String.
    unfold TOKEN_PATTERNS. cbn [token_re_match].
    unfold re_comment, re_char, re_string. simpl Ascii.eqb. cbv iota.
    rewrite span_app; [reflexivity | assumption | reflexivity].
Qed.

(** The text of a token does not begin with a blank. *)
Lemma token_text_starts t :
  token_ok t = true ->
  exists c s, token_text t = String c s /\ space_char c = false.
Proof.
  destruct t as [kind value]. intros Hok.
  apply token_ok_cases in Hok
    as [[-> ->] | [[-> ->] | [[-> ->] | [(-> & c & w & -> & Hc & Hw) | [-> Hs]]]]];
    try (eexists _, _; split; reflexivity).
  exists c, w. split; [reflexivity|]. apply word_char_plain. assumption.
Qed.

Lemma render_starts tokens :
  Forall (fun t => token_ok t = true) tokens ->
  match render tokens with String c _ => space_char c = false | EmptyString => True end.
Proof.
  intros [|t tokens' Hok _]; [exact I|].
  cbn [render]. destruct (token_text_starts t Hok) as (c & s & -> & Hc).
  rewrite append_String. exact Hc.
Qed.

Lemma tokenize_from_render tokens :
  Forall (fun t => token_ok t = true) tokens ->
  forall fuel, (2 * length tokens <= fuel)%nat ->
  tokenize_from fuel (render tokens) = Some (inr tokens).
Proof.
  induction 1 as [|t tokens Hok Hall IH]; intros fuel Hfuel.
  - destruct fuel; reflexivity.
  - cbn [length] in Hfuel.
    destruct fuel as [|[|fuel]]; try lia.
    cbn [render].
    pose proof (token_re_match_token_text t (render tokens) Hok) as Hm.
    destruct (token_text_starts t Hok) as (c & s & Htext & _).
    rewrite Htext, append_String in Hm |- *.
    cbn [tokenize_from]. rewrite Hm.
    (* the space after the token *)
    assert (Hsp : token_re_match TOKEN_PATTERNS (String " " (render tokens))
                  = Some ("WHITESPACE", String " " EmptyString, render tokens)).
    { unfold TOKEN_PATTERNS. cbn [token_re_match].
      unfold re_comment, re_char, re_string. simpl Ascii.eqb. cbv iota.
      unfold re_plus.
      replace (span word_char (String " " (render tokens)))
        with (EmptyString, String " " (render tokens)) by reflexivity.
      change (String " " (render tokens)) with (String " " EmptyString +:+ render tokens).
      rewrite span_app; [reflexivity | reflexivity | apply render_starts; assumption]. }
    rewrite Hsp, (IH fuel) by lia. simpl orb. cbv iota.
    destruct t as [kind value].
    apply token_ok_cases in Hok
      as [[-> ->] | [[-> ->] | [[-> ->] | [(-> & c' & w & -> & Hc & Hw) | [-> Hs]]]]];
      rewrite <- Htext; try reflexivity.
    cbn [fst]. change (String.eqb "STRING" "WHITESPACE" || String.eqb "STRING" "COMMENT")
      with false. cbv iota.
    unfold token_text. cbn [fst snd].
    change (String.eqb "STRING" "STRING") with true. cbv iota.
    rewrite strip_quotes_quoted by assumption. reflexivity.
Qed.

Lemma render_length tokens :
  Forall (fun t => token_ok t = true) tokens ->
  (2 * length tokens <= String.length (render tokens))%nat.
Proof.
  induction 1 as [|t tokens Hok Hall IH]; [simpl; lia|].
  cbn [render length]. rewrite append_length.
  destruct (token_text_starts t Hok) as (c & s & -> & _). simpl. lia.
Qed.

End LexerRoundTrip.

(** X11. [tokenize] ends on every text, with the list of tokens or with
    [SyntaxError]: each match moves the position forward, so the loop
    takes no more iterations than the text has characters. *)
Theorem tokenize_ends :
  forall config_text : string,
  (exists tokens, SimpleConfigLexer.tokenize config_text = Some (inr tokens)) \/
  SimpleConfigLexer.tokenize config_text = Some (inl SyntaxError).
Proof.
  intros config_text. unfold SimpleConfigLexer.tokenize.
  destruct (tokenize_from_total (String.length config_text) config_text) as [r Hr]; [lia|].
  rewrite Hr. destruct r as [e|tokens]; [|eauto].
  right. f_equal. f_equal.
  clear -Hr. revert Hr. generalize (String.length config_text) as fuel.
  intros fuel. revert config_text.
  induction fuel as [|fuel IH]; intros [|c s] H;
    cbn [SimpleConfigLexer.tokenize_from] in H; try discriminate H.
  destruct (SimpleConfigLexer.token_re_match SimpleConfigLexer.TOKEN_PATTERNS (String c s))
    as [[[kind value] rest]|]; [|congruence].
  destruct (SimpleConfigLexer.tokenize_from fuel rest) as [[e'|tokens]|] eqn:Hr;
    try discriminate H.
  - inversion H; subst. eauto.
  - destruct (String.eqb kind "WHITESPACE" || String.eqb kind "COMMENT");
      [|destruct (String.eqb kind "STRING")]; discriminate H.
Qed.

(** X12. Every token [tokenize] gives is a brace or a semicolon with its
    character, a WORD that is a non-empty run of letters, digits,
    underscores, dots, slashes and hyphens, or a STRING with no double quote
    in it; there is no WHITESPACE and no COMMENT token. *)
Theorem tokenize_tokens_ok :
  forall (config_text : string) (tokens : list Token),
  SimpleConfigLexer.tokenize config_text = Some (inr tokens) ->
  Forall (fun t => token_ok t = true) tokens.
Proof.
  intros config_text tokens H.
  exact (tokenize_from_tokens_ok _ _ _ H).
Qed.

Lemma tokenize_tokens_ok_witness :
  SimpleConfigLexer.tokenize "location / { root /html; } # served"
  = Some (inr [("WORD", "location"); ("WORD", "/"); ("LBRACE", "{"); ("WORD", "root");
               ("WORD", "/html"); ("SEMICOLON", ";"); ("RBRACE", "}")]) /\
  Forall (fun t => token_ok t = true)
    [("WORD", "location"); ("WORD", "/"); ("LBRACE", "{"); ("WORD", "root");
     ("WORD", "/html"); ("SEMICOLON", ";"); ("RBRACE", "}")].
Proof.
  assert (H : SimpleConfigLexer.tokenize "location / { root /html; } # served"
  = Some (inr [("WORD", "location"); ("WORD", "/"); ("LBRACE", "{"); ("WORD", "root");
               ("WORD", "/html"); ("SEMICOLON", ";"); ("RBRACE", "}")]))
    by (vm_compute; reflexivity).
  split; [exact H|].
  exact (tokenize_tokens_ok _ _ H).
Defined.

(** X13. Writing out a list of such tokens, each as it is spelt (a STRING
    between double quotes) and followed by a space, and lexing the text
    gives the list back. *)
Theorem tokenize_render :
  forall tokens : list Token,
  Forall (fun t => token_ok t = true) tokens ->
  SimpleConfigLexer.tokenize (render tokens) = Some (inr tokens).
Proof.
  intros tokens Hok. unfold SimpleConfigLexer.tokenize.
  apply tokenize_from_render; [assumption|].
  apply render_length. assumption.
Qed.

Lemma tokenize_render_witness :
  Forall (fun t => token_ok t = true)
    [("WORD", "root"); ("STRING", "/my site"); ("SEMICOLON", ";")] /\
  SimpleConfigLexer.tokenize
    (render [("WORD", "root"); ("STRING", "/my site"); ("SEMICOLON", ";")])
  = Some (inr [("WORD", "root"); ("STRING", "/my site"); ("SEMICOLON", ";")]).
Proof.
  assert (H : Forall (fun t => token_ok t = true)
    [("WORD", "root"); ("STRING", "/my site"); ("SEMICOLON", ";")])
    by (repeat constructor).
  split; [exact H|].
  exact (tokenize_render _ H).
Defined.

(** ** The parser *)

Section ParserLoops.
Import SimpleConfigParser.

Lemma add_block_error key args block config e :
  add_block key args block config = inl e -> e = SyntaxError.
Proof.
  unfold add_block. destruct args as [|arg_key args]; [discriminate|].
  destruct (dict_get String.eqb key config) as [[s|l|d]|]; congruence.
Qed.

Lemma arguments_total (n : nat) block_loop :
  (forall config tokens, (length tokens < n)%nat ->
     exists r, block_loop config tokens = Some r /\ fair r tokens) ->
  forall tokens key config args, (length tokens < n)%nat ->
    exists r, arguments block_loop key config args tokens = Some r /\ fair r tokens.
Proof.
  intros Hloop. induction tokens as [|[t v] tokens IH]; intros key config args Hlen.
  - eexists. split; reflexivity.
  - cbn [arguments]. cbn [length] in Hlen.
    destruct (String.eqb t "LBRACE").
    + destruct (1 <? length args)%nat; [eexists; split; reflexivity|].
      destruct (Hloop [] tokens) as ([e|[block rest]] & Hr & Hfair); [lia| |]; rewrite Hr.
      * eexists. split; [reflexivity | exact Hfair].
      * simpl in Hfair.
        destruct (add_block key args block config) as [e|config'] eqn:Hadd.
        -- apply add_block_error in Hadd. subst. eexists. split; reflexivity.
        -- destruct (Hloop config' rest) as (r & Hr' & Hfair'); [lia|].
           exists r. split; [assumption|].
           destruct r as [e|[cfg rest']]; simpl in *; [assumption | lia].
    + destruct (String.eqb t "SEMICOLON").
      * destruct (Hloop (add_value key (value_of_args args) config) tokens)
          as (r & Hr & Hfair); [lia|].
        exists r. split; [assumption|].
        destruct r as [e|[cfg rest']]; simpl in *; [assumption | lia].
      * destruct (negb (String.eqb t "WORD")); [eexists; split; reflexivity|].
        destruct (IH key config (args ++ [v])) as (r & Hr & Hfair); [lia|].
        exists r. split; [assumption|].
        destruct r as [e|[cfg rest']]; simpl in *; [assumption | lia].
Qed.

Lemma parse_block_total fuel : forall config tokens,
  (length tokens < fuel)%nat ->
  exists r, _parse_block fuel config tokens = Some r /\ fair r tokens.
Proof.
  induction fuel as [|fuel IH]; intros config tokens Hlen; [lia|].
  cbn [_parse_block]. destruct tokens as [|[tt tv] tokens].
  - eexists. split; [reflexivity | simpl; lia].
  - cbn [length] in Hlen. destruct (String.eqb tt "RBRACE").
    + eexists. split; [reflexivity | simpl; lia].
    + destruct (negb (String.eqb tt "WORD")); [eexists; split; reflexivity|].
      destruct (arguments_total fuel (_parse_block fuel) IH tokens tv config [])
        as (r & Hr & Hfair); [lia|].
      exists r. split; [assumption|].
      destruct r as [e|[cfg rest']]; simpl in *; [assumption | lia].
Qed.

(** More fuel does not change a result. *)
Lemma arguments_more block_loop block_loop' :
  (forall config tokens r, block_loop config tokens = Some r ->
                           block_loop' config tokens = Some r) ->
  forall tokens key config args r,
    arguments block_loop key config args tokens = Some r ->
    arguments block_loop' key config args tokens = Some r.
Proof.
  intros Hmore. induction tokens as [|[t v] tokens IH]; intros key config args r H.
  - exact H.
  - cbn [arguments] in H |- *.
    destruct (String.eqb t "LBRACE").
    + destruct (1 <? length args)%nat; [exact H|].
      destruct (block_loop [] tokens) as [[e|[block rest]]|] eqn:Hr; [| |discriminate H];
        rewrite (Hmore _ _ _ Hr); [exact H|].
      destruct (add_block key args block config); [exact H | auto].
    + destruct (String.eqb t "SEMICOLON"); [auto|].
      destruct (negb (String.eqb t "WORD")); [exact H | auto].
Qed.

Lemma parse_block_more fuel : forall fuel' config tokens r,
  (fuel <= fuel')%nat ->
  _parse_block fuel config tokens = Some r ->
  _parse_block fuel' config tokens = Some r.
Proof.
  induction fuel as [|fuel IH]; intros fuel' config tokens r Hle H; [discriminate H|].
  destruct fuel' as [|fuel']; [lia|].
  cbn [_parse_block] in H |- *. destruct tokens as [|[tt tv] tokens]; [exact H|].
  destruct (String.eqb tt "RBRACE"); [exact H|].
  destruct (negb (String.eqb tt "WORD")); [exact H|].
  apply (arguments_more (_parse_block fuel)); [|exact H].
  intros config' tokens' r'. apply IH. lia.
Qed.

(** With enough fuel the result is the one of any fuel that gave one. *)
Lemma parse_block_fuel fuel fuel' config tokens r :
  _parse_block fuel config tokens = Some r ->
  (length tokens < fuel')%nat ->
  _parse_block fuel' config tokens = Some r.
Proof.
  intros H Hlen.
  destruct (parse_block_total fuel' config tokens Hlen) as (r' & Hr' & _).
  rewrite Hr'. f_equal.
  apply (parse_block_more _ (Nat.max fuel fuel')) in H; [|lia].
  apply (parse_block_more _ (Nat.max fuel fuel')) in Hr'; [|lia].
  congruence.
Qed.

Lemma arguments_reads_a_prefix block_loop :
  reads_a_prefix block_loop ->
  forall tokens key config args cfg rest,
    arguments block_loop key config args tokens = Some (inr (cfg, rest)) ->
    exists consumed,
      tokens = consumed ++ rest /\
      Forall (fun t => parser_kind t = true) consumed /\
      (rest <> [] ->
       forall junk,
         arguments block_loop key config args (consumed ++ junk) = Some (inr (cfg, junk))).
Proof.
  intros Hloop. induction tokens as [|[t v] tokens IH]; intros key config args cfg rest H.
  - discriminate H.
  - cbn [arguments] in H.
    destruct (String.eqb t "LBRACE") eqn:El.
    + destruct (1 <? length args)%nat eqn:Eargs; [discriminate H|].
      destruct (block_loop [] tokens) as [[e|[block rest1]]|] eqn:Hr; try discriminate H.
      destruct (add_block key args block config) as [e|config'] eqn:Hadd; [discriminate H|].
      destruct (Hloop _ _ _ _ Hr) as (c1 & -> & Hk1 & Hjunk1).
      destruct (Hloop _ _ _ _ H) as (c2 & -> & Hk2 & Hjunk2).
      exists ((t, v) :: c1 ++ c2). split; [cbn [app]; rewrite app_assoc; reflexivity|]. split.
      * constructor; [unfold parser_kind; cbn [fst]; rewrite El, !orb_true_r; reflexivity|].
        apply Forall_app; auto.
      * intros Hrest junk. cbn [app arguments]. rewrite El, Eargs.
        rewrite <- app_assoc, Hjunk1, Hadd; [auto|].
        destruct c2; [exact Hrest | discriminate].
    + destruct (String.eqb t "SEMICOLON") eqn:Es.
      * destruct (Hloop _ _ _ _ H) as (c2 & -> & Hk2 & Hjunk2).
        exists ((t, v) :: c2). split; [reflexivity|]. split.
        -- constructor; [unfold parser_kind; cbn [fst]; rewrite Es, !orb_true_r; reflexivity|].
           assumption.
        -- intros Hrest junk. cbn [app arguments]. rewrite El, Es. auto.
      * destruct (String.eqb t "WORD") eqn:Ew; [|discriminate H]. cbn [negb] in H.
        destruct (IH _ _ _ _ _ H) as (c2 & -> & Hk2 & Hjunk2).
        exists ((t, v) :: c2). split; [reflexivity|]. split.
        -- constructor; [unfold parser_kind; cbn [fst]; rewrite Ew; reflexivity|].
           assumption.
        -- intros Hrest junk. cbn [app arguments]. rewrite El, Es, Ew. cbn [negb]. auto.
Qed.

Lemma parse_block_reads_a_prefix fuel : reads_a_prefix (_parse_block fuel).
Proof.
  induction fuel as [|fuel IH]; intros config tokens cfg rest H; [discriminate H|].
  cbn [_parse_block] in H. destruct tokens as [|[tt tv] tokens].
  - inversion H; subst. exists []. split; [reflexivity|]. split; [constructor|].
    intros Hrest. congruence.
  - destruct (String.eqb tt "RBRACE") eqn:Er.
    + inversion H; subst. exists [(tt, tv)]. split; [reflexivity|]. split.
      * constructor; [|constructor].
        unfold parser_kind. cbn [fst]. rewrite Er, !orb_true_r. reflexivity.
      * intros _ junk. cbn [app _parse_block]. rewrite Er. reflexivity.
    + destruct (String.eqb tt "WORD") eqn:Ew; [|discriminate H]. cbn [negb] in H.
      destruct (arguments_reads_a_prefix _ IH _ _ _ _ _ _ H) as (c & -> & Hk & Hjunk).
      exists ((tt, tv) :: c). split; [reflexivity|]. split.
      * constructor; [unfold parser_kind; cbn [fst]; rewrite Ew; reflexivity | assumption].
      * intros Hrest junk. cbn [app _parse_block]. rewrite Er, Ew. cbn [negb]. auto.
Qed.

End ParserLoops.
Section ParserBraces.
Import SimpleConfigParser.

Variable rb : Token.
Hypothesis rb_kind : fst rb = "RBRACE".

Lemma arguments_closing_brace block_loop :
  reads_a_prefix block_loop ->
  closes_with rb block_loop ->
  forall tokens key config args cfg rest,
    arguments block_loop key config args tokens = Some (inr (cfg, rest)) ->
    arguments block_loop key config args (tokens ++ [rb]) = Some (inr (cfg, rest ++ [rb])) \/
    (rest = [] /\
     arguments block_loop key config args (tokens ++ [rb]) = Some (inr (cfg, []))).
Proof.
  intros Hread Hclose.
  induction tokens as [|[t v] tokens IH]; intros key config args cfg rest H.
  - discriminate H.
  - cbn [arguments app] in H |- *.
    destruct (String.eqb t "LBRACE").
    + destruct (1 <? length args)%nat; [discriminate H|].
      destruct (block_loop [] tokens) as [[e|[block rest1]]|] eqn:Hr; try discriminate H.
      destruct (add_block key args block config) as [e|config'] eqn:Hadd; [discriminate H|].
      destruct (Hclose _ _ _ _ Hr) as [Hr' | [-> Hr']]; rewrite Hr', Hadd.
      * apply Hclose. exact H.
      * destruct (Hread _ _ _ _ H) as (c & Hc & _).
        symmetry in Hc. apply app_eq_nil in Hc as [_ ->]. auto.
    + destruct (String.eqb t "SEMICOLON"); [apply Hclose; exact H|].
      destruct (negb (String.eqb t "WORD")); [discriminate H|].
      apply IH. exact H.
Qed.

Lemma parse_block_closing_brace fuel : closes_with rb (_parse_block fuel).
Proof.
  induction fuel as [|fuel IH]; intros config tokens cfg rest H; [discriminate H|].
  cbn [_parse_block] in H. destruct tokens as [|[tt tv] tokens].
  - inversion H; subst. right. split; [reflexivity|].
    destruct rb as [k v]. cbn [fst] in rb_kind. subst k. reflexivity.
  - cbn [app _parse_block].
    destruct (String.eqb tt "RBRACE").
    + inversion H; subst. auto.
    + destruct (negb (String.eqb tt "WORD")); [discriminate H|].
      apply arguments_closing_brace; [apply parse_block_reads_a_prefix | exact IH | exact H].
Qed.

Lemma parse_closing_brace tokens cfg :
  parse tokens = Some (inr cfg) -> parse (tokens ++ [rb]) = Some (inr cfg).
Proof.
  unfold parse. intros H.
  destruct (_parse_block (S (length tokens)) [] tokens) as [[e|[cfg' rest]]|] eqn:Hr;
    inversion H; subst.
  apply (parse_block_more _ (S (length (tokens ++ [rb])))) in Hr;
    [|rewrite length_app; lia].
  destruct (parse_block_closing_brace _ _ _ _ _ Hr) as [Hr' | [_ Hr']];
    rewrite Hr'; reflexivity.
Qed.

End ParserBraces.

(** ** The parser and the depth of the call stack *)

Section ParserStack.
Import SimpleConfigParser.

Lemma opening_braces_cons (t : Token) tokens :
  opening_braces (t :: tokens)
  = ((if String.eqb (fst t) "LBRACE" then 1 else 0) + opening_braces tokens)%nat.
Proof. reflexivity. Qed.

Lemma opening_braces_app a b :
  opening_braces (a ++ b) = (opening_braces a + opening_braces b)%nat.
Proof.
  induction a as [|t a IH]; [reflexivity|].
  cbn [app]. rewrite !opening_braces_cons, IH. lia.
Qed.

Lemma limited_arguments (repr_levels n limit : nat) nested block_loop unbounded :
  reads_a_prefix unbounded ->
  (forall tokens, (length tokens < n)%nat ->
     exists r, nested tokens = Some r /\
               ((r = inl RecursionError /\
                 (limit < 1 + opening_braces tokens + repr_levels)%nat) \/
                unbounded [] tokens = Some r)) ->
  (forall config tokens, (length tokens < n)%nat ->
     exists r, block_loop config tokens = Some r /\
               within_limit repr_levels limit tokens r (unbounded config tokens)) ->
  forall tokens key config args, (length tokens < n)%nat ->
    exists r,
      RecursionLimit.arguments repr_levels limit nested block_loop key config args tokens
        = Some r /\
      within_limit repr_levels limit tokens r
        (arguments unbounded key config args tokens).
Proof.
  intros Hread Hnested Hloop.
  induction tokens as [|[t v] tokens IH]; intros key config args Hlen.
  - eexists. split; [reflexivity|]. right. reflexivity.
  - cbn [RecursionLimit.arguments arguments]. cbn [length] in Hlen.
    unfold within_limit in *. rewrite opening_braces_cons. cbn [fst].
    destruct (String.eqb t "LBRACE").
    + destruct (1 <? length args)%nat.
      { destruct (limit <? repr_levels)%nat eqn:Hroom.
        - apply Nat.ltb_lt in Hroom.
          eexists. split; [reflexivity|]. left. split; [reflexivity | lia].
        - eexists. split; [reflexivity | right; reflexivity]. }
      destruct (Hnested tokens) as (r & Hr & [[-> Hdeep] | Hsame]); [lia| |]; rewrite Hr.
      * eexists. split; [reflexivity|]. left. split; [reflexivity | lia].
      * rewrite Hsame. destruct r as [e|[block rest]].
        { eexists. split; [reflexivity|]. right. reflexivity. }
        destruct (add_block key args block config) as [e|config'].
        { eexists. split; [reflexivity|]. right. reflexivity. }
        destruct (Hread _ _ _ _ Hsame) as (consumed & Ht & _).
        assert (Hrest : (length rest <= length tokens)%nat)
          by (rewrite Ht, length_app; lia).
        assert (Hbraces : (opening_braces rest <= opening_braces tokens)%nat)
          by (rewrite Ht, opening_braces_app; lia).
        destruct (Hloop config' rest) as (r & Hr' & [[-> Hdeep] | Hsame']); [lia| |].
        -- exists (inl RecursionError). split; [exact Hr'|]. left. split; [reflexivity | lia].
        -- exists r. split; [exact Hr' | right; exact Hsame'].
    + destruct (String.eqb t "SEMICOLON").
      * destruct (Hloop (add_value key (value_of_args args) config) tokens)
          as (r & Hr & [[-> Hdeep] | Hsame]); [lia| |].
        -- exists (inl RecursionError). split; [exact Hr|]. left. split; [reflexivity | lia].
        -- exists r. split; [exact Hr | right; exact Hsame].
      * destruct (negb (String.eqb t "WORD"));
          [eexists; split; [reflexivity | right; reflexivity]|].
        destruct (IH key config (args ++ [v])) as (r & Hr & [[-> Hdeep] | Hsame]); [lia| |].
        -- exists (inl RecursionError). split; [exact Hr|]. left. split; [reflexivity | lia].
        -- exists r. split; [exact Hr | right; exact Hsame].
Qed.

Lemma limited_parse_block repr_levels fuel : forall limit config tokens,
  (length tokens < fuel)%nat ->
  exists r, RecursionLimit._parse_block repr_levels fuel limit config tokens = Some r /\
            within_limit repr_levels limit tokens r (_parse_block fuel config tokens).
Proof.
  induction fuel as [|fuel IH]; intros limit config tokens Hlen; [lia|].
  cbn [RecursionLimit._parse_block _parse_block]. destruct tokens as [|[tt tv] tokens].
  - eexists. split; [reflexivity | right; reflexivity].
  - cbn [length] in Hlen. destruct (String.eqb tt "RBRACE").
    + eexists. split; [reflexivity | right; reflexivity].
    + destruct (negb (String.eqb tt "WORD"));
        [eexists; split; [reflexivity | right; reflexivity]|].
      destruct (limited_arguments repr_levels fuel limit
                  (match limit with
                   | O => fun _ => Some (inl RecursionError)
                   | S limit' => RecursionLimit._parse_block repr_levels fuel limit' []
                   end)
                  (RecursionLimit._parse_block repr_levels fuel limit)
                  (_parse_block fuel)
                  (parse_block_reads_a_prefix fuel)) with (tokens := tokens)
        (key := tv) (config := config) (args := @nil string)
        as (r & Hr & [[-> Hdeep] | Hsame]).
      * intros tokens' Hlen'. destruct limit as [|limit'].
        -- eexists. split; [reflexivity|]. left. split; [reflexivity | lia].
        -- destruct (IH limit' [] tokens' Hlen') as (r & Hr & [[-> Hdeep] | Hsame]).
           ++ exists (inl RecursionError). split; [exact Hr|]. left.
              split; [reflexivity | lia].
           ++ exists r. split; [exact Hr | right; exact Hsame].
      * intros config' tokens' Hlen'. apply IH. exact Hlen'.
      * lia.
      * exists (inl RecursionError). split; [exact Hr|]. left. split; [reflexivity|].
        rewrite opening_braces_cons. lia.
      * exists r. split; [exact Hr | right; exact Hsame].
Qed.

End ParserStack.

(** X14. [parse] ends on every list of tokens, whatever room the stack has
    for nested calls: with the dictionary, or with the [SyntaxError], that
    it gives when the stack has room for every block, or else with
    [RecursionError], and only when the opening braces of the tokens,
    together with the levels that the message of an error takes, are more
    than the nested calls the stack has room for. *)
Theorem parse_ends :
  forall (repr_levels limit : nat) (tokens : list Token),
  (exists cfg,
     RecursionLimit.parse repr_levels limit tokens = Some (inr cfg) /\
     SimpleConfigParser.parse tokens = Some (inr cfg)) \/
  (RecursionLimit.parse repr_levels limit tokens = Some (inl SyntaxError) /\
   SimpleConfigParser.parse tokens = Some (inl SyntaxError)) \/
  (RecursionLimit.parse repr_levels limit tokens = Some (inl RecursionError) /\
   (limit < opening_braces tokens + repr_levels)%nat).
Proof.
  intros repr_levels limit tokens.
  unfold RecursionLimit.parse, SimpleConfigParser.parse.
  destruct (limited_parse_block repr_levels (S (length tokens)) limit [] tokens)
    as (r & Hr & [[-> Hdeep] | Hsame]); [lia| |]; rewrite Hr.
  - right. right. split; [reflexivity | exact Hdeep].
  - rewrite Hsame.
    destruct (parse_block_total (S (length tokens)) [] tokens) as (r' & Hr' & Hfair); [lia|].
    rewrite Hsame in Hr'. inversion Hr'; subst r'.
    destruct r as [e|[cfg rest]].
    + simpl in Hfair. subst e. right. left. split; reflexivity.
    + left. exists cfg. split; reflexivity.
Qed.

(** The parser on blocks nested deeper than the stack has room for, and
    on a block with two arguments where the room is short for the
    message. *)
Lemma test_blocks_nested_too_deep :
  RecursionLimit.parse 2 3 (nested_blocks 3)
    = Some (inr [("a", Dict [("a", Dict [("a", Dict [])])])]) /\
  RecursionLimit.parse 2 3 (nested_blocks 4) = Some (inl RecursionError) /\
  RecursionLimit.parse 2 3 (nested_blocks 3 ++ [("STRING", "x")])
    = Some (inl SyntaxError) /\
  RecursionLimit.parse 2 3
    (nested_blocks 1 ++ [("WORD", "k"); ("WORD", "x"); ("WORD", "y"); ("LBRACE", "{")])
    = Some (inl SyntaxError) /\
  RecursionLimit.parse 2 3
    (nested_blocks 2 ++ [("WORD", "k"); ("WORD", "x"); ("WORD", "y"); ("LBRACE", "{")])
    = Some (inl RecursionError).
Proof. repeat split; vm_compute; reflexivity. Qed.

(** X15. When [parse] succeeds, the tokens it has read are WORDs, braces
    and semicolons: a STRING token, which the lexer makes of a quoted text,
    is always a [SyntaxError].  And when it has not read all the tokens (it
    stops at a closing brace of the top level), the rest is not looked at:
    any other tokens in its place give the same dictionary. *)
Theorem parse_reads_a_prefix :
  forall (tokens : list Token) (cfg : list (string * value)),
  SimpleConfigParser.parse tokens = Some (inr cfg) ->
  exists consumed rest,
    tokens = consumed ++ rest /\
    Forall (fun t => parser_kind t = true) consumed /\
    (rest <> [] ->
     forall junk, SimpleConfigParser.parse (consumed ++ junk) = Some (inr cfg)).
Proof.
  intros tokens cfg H. unfold SimpleConfigParser.parse in H.
  destruct (SimpleConfigParser._parse_block (S (length tokens)) [] tokens)
    as [[e|[cfg' rest]]|] eqn:Hr; inversion H; subst.
  destruct (parse_block_reads_a_prefix _ _ _ _ _ Hr) as (consumed & Ht & Hk & Hjunk).
  exists consumed, rest. split; [assumption|]. split; [assumption|].
  intros Hrest junk. unfold SimpleConfigParser.parse.
  rewrite (parse_block_fuel _ (S (length (consumed ++ junk))) _ _ _ (Hjunk Hrest junk));
    [reflexivity | lia].
Qed.

Lemma parse_reads_a_prefix_witness :
  SimpleConfigParser.parse
    [("WORD", "listen"); ("WORD", "80"); ("SEMICOLON", ";"); ("RBRACE", "}");
     ("STRING", "left over")]
  = Some (inr [("listen", Str "80")]) /\
  exists consumed rest,
    [("WORD", "listen"); ("WORD", "80"); ("SEMICOLON", ";"); ("RBRACE", "}");
     ("STRING", "left over")] = consumed ++ rest /\
    Forall (fun t => parser_kind t = true) consumed /\
    (rest <> [] ->
     forall junk,
       SimpleConfigParser.parse (consumed ++ junk) = Some (inr [("listen", Str "80")])).
Proof.
  assert (H : SimpleConfigParser.parse
    [("WORD", "listen"); ("WORD", "80"); ("SEMICOLON", ";"); ("RBRACE", "}");
     ("STRING", "left over")]
  = Some (inr [("listen", Str "80")])) by (vm_compute; reflexivity).
  split; [exact H|].
  exact (parse_reads_a_prefix _ _ H).
Defined.

(** X16. Closing braces that are missing at the end of the input are not
    an error: when [parse] succeeds on a list of tokens, it gives the same
    dictionary on that list followed by any number of closing braces. *)
Theorem parse_forgives_closing_braces :
  forall (tokens : list Token) (cfg : list (string * value)) (n : nat) (v : string),
  SimpleConfigParser.parse tokens = Some (inr cfg) ->
  SimpleConfigParser.parse (tokens ++ replicate n ("RBRACE", v)) = Some (inr cfg).
Proof.
  intros tokens cfg n v. revert tokens.
  induction n as [|n IH]; intros tokens H.
  - cbn [replicate]. rewrite app_nil_r. exact H.
  - cbn [replicate].
    replace (tokens ++ ("RBRACE", v) :: replicate n ("RBRACE", v))
      with ((tokens ++ [("RBRACE", v)]) ++ replicate n ("RBRACE", v))
      by (rewrite <- app_assoc; reflexivity).
    apply IH. apply parse_closing_brace; [reflexivity | exact H].
Qed.

Lemma parse_forgives_closing_braces_witness :
  SimpleConfigParser.parse
    [("WORD", "http"); ("LBRACE", "{"); ("WORD", "server"); ("LBRACE", "{");
     ("WORD", "listen"); ("WORD", "80"); ("SEMICOLON", ";")]
  = Some (inr [("http", Dict [("server", Dict [("listen", Str "80")])])]) /\
  SimpleConfigParser.parse
    ([("WORD", "http"); ("LBRACE", "{"); ("WORD", "server"); ("LBRACE", "{");
      ("WORD", "listen"); ("WORD", "80"); ("SEMICOLON", ";")]
     ++ replicate 2 ("RBRACE", "}"))
  = Some (inr [("http", Dict [("server", Dict [("listen", Str "80")])])]).
Proof.
  assert (H : SimpleConfigParser.parse
    [("WORD", "http"); ("LBRACE", "{"); ("WORD", "server"); ("LBRACE", "{");
     ("WORD", "listen"); ("WORD", "80"); ("SEMICOLON", ";")]
  = Some (inr [("http", Dict [("server", Dict [("listen", Str "80")])])]))
    by (vm_compute; reflexivity).
  split; [exact H|].
  exact (parse_forgives_closing_braces _ _ 2 "}" H).
Defined.

(** ** The configuration accessors *)

Section DictFacts.

Context {K V : Type} (eqb : K -> K -> bool).
Hypothesis eqb_spec : forall a b, eqb a b = true <-> a = b.

Lemma dict_get_set_eq key (v : V) d :
  dict_get eqb key (dict_set eqb key v d) = Some v.
Proof.
  assert (Hrefl : eqb key key = true) by (apply eqb_spec; reflexivity).
  induction d as [|[k v0] d IH]; simpl.
  - rewrite Hrefl. reflexivity.
  - destruct (eqb k key) eqn:E; simpl; rewrite E; [reflexivity | exact IH].
Qed.

Lemma dict_get_set_ne key key' (v : V) d :
  key <> key' ->
  dict_get eqb key' (dict_set eqb key v d) = dict_get eqb key' d.
Proof.
  intros Hne.
  assert (Hf : eqb key key' = false).
  { destruct (eqb key key') eqn:E; [|reflexivity]. apply eqb_spec in E. contradiction. }
  induction d as [|[k v0] d IH]; simpl.
  - rewrite Hf. reflexivity.
  - destruct (eqb k key) eqn:E; simpl.
    + apply eqb_spec in E. subst k. rewrite Hf. reflexivity.
    + destruct (eqb k key'); [reflexivity | exact IH].
Qed.

(** A key that is not in the dictionary goes last. *)
Lemma dict_set_new key (v : V) d :
  ~ In key (map fst d) -> dict_set eqb key v d = d ++ [(key, v)].
Proof.
  induction d as [|[k v0] d IH]; intros Hnew; [reflexivity|].
  simpl in *. destruct (eqb k key) eqn:E.
  - apply eqb_spec in E. tauto.
  - rewrite IH by tauto. reflexivity.
Qed.

End DictFacts.

Lemma Z_eqb_spec (a b : Z) : Z.eqb a b = true <-> a = b.
Proof. apply Z.eqb_eq. Qed.

Section AccessorFacts.
Import ServerConfig.

(** Every port of [listen_ports] is a key of [routes]. *)
Lemma ports_have_routes servers : forall ports0 mapping0 ports mapping,
  listen_ports_loop servers ports0 = inr ports ->
  routes_loop servers mapping0 = inr mapping ->
  (forall p, In p ports0 -> dict_get Z.eqb p mapping0 <> None) ->
  forall p, In p ports -> dict_get Z.eqb p mapping <> None.
Proof.
  induction servers as [|server servers IH]; intros ports0 mapping0 ports mapping Hl Hr H0.
  - inversion Hl; inversion Hr; subst. exact H0.
  - cbn [routes_loop] in Hr.
    destruct (server_routes server) as [e|[port route_map]] eqn:Hs; [discriminate Hr|].
    assert (Hkeep : forall p, dict_get Z.eqb p mapping0 <> None ->
                              dict_get Z.eqb p (dict_set Z.eqb port route_map mapping0) <> None).
    { intros p Hp. destruct (Z.eq_dec port p) as [->|Hne].
      - rewrite (dict_get_set_eq Z.eqb Z_eqb_spec). discriminate.
      - rewrite (dict_get_set_ne Z.eqb Z_eqb_spec) by assumption. exact Hp. }
    destruct server as [s|l|server]; try discriminate Hl.
    cbn [listen_ports_loop] in Hl. unfold server_routes in Hs.
    destruct (dict_get String.eqb "listen" server) as [listen|].
    + destruct (truthy (Some listen)).
      * destruct (int listen) as [e|n]; [discriminate Hl|].
        destruct (locations_loop _ []) as [e|rm]; inversion Hs; subst.
        apply (IH _ _ _ _ Hl Hr). intros p Hp.
        apply in_app_or in Hp as [Hp | [<- | []]]; [auto|].
        rewrite (dict_get_set_eq Z.eqb Z_eqb_spec). discriminate.
      * apply (IH _ _ _ _ Hl Hr). auto.
    + apply (IH _ _ _ _ Hl Hr). auto.
Qed.

(** The exceptions of the accessors. *)
Lemma int_error v e : int v = inl e -> config_error e.
Proof.
  unfold int, config_error. destruct v as [s|l|d]; intros H;
    [|inversion H; auto|inversion H; auto].
  destruct (PyInt.of_string s); inversion H; auto.
Qed.

Lemma get_servers_error config e : get_servers config = inl e -> config_error e.
Proof.
  unfold get_servers, config_error.
  destruct (default (Dict []) (dict_get String.eqb "http" config)) as [s|l|h]; intros H;
    [inversion H; auto | inversion H; auto |].
  destruct (default (Lst []) (dict_get String.eqb "server" h)); discriminate H.
Qed.

Lemma locations_loop_error locations : forall route_map e,
  locations_loop locations route_map = inl e -> config_error e.
Proof.
  induction locations as [|[s|l|loc] locations IH]; intros route_map e H;
    cbn [locations_loop] in H.
  - discriminate H.
  - inversion H. unfold config_error. auto.
  - inversion H. unfold config_error. auto.
  - eauto.
Qed.

Lemma server_routes_error server e : server_routes server = inl e -> config_error e.
Proof.
  unfold server_routes. destruct server as [s|l|server];
    [intros H; inversion H; unfold config_error; auto
     | intros H; inversion H; unfold config_error; auto |].
  destruct (match dict_get String.eqb "listen" server with
            | Some listen => int listen | None => inr 80 end) as [e'|port] eqn:Hp.
  - intros H; inversion H; subst.
    destruct (dict_get String.eqb "listen" server); [|discriminate Hp].
    apply int_error in Hp. exact Hp.
  - destruct (locations_loop _ []) as [e'|rm] eqn:Hl; intros H; inversion H; subst.
    apply locations_loop_error in Hl. exact Hl.
Qed.

Lemma routes_loop_error servers : forall mapping e,
  routes_loop servers mapping = inl e -> config_error e.
Proof.
  induction servers as [|server servers IH]; intros mapping e H;
    cbn [routes_loop] in H; [discriminate H|].
  destruct (server_routes server) as [e'|[port rm]] eqn:Hs; [|eauto].
  inversion H; subst. apply server_routes_error in Hs. exact Hs.
Qed.

Lemma listen_ports_loop_error servers : forall ports e,
  listen_ports_loop servers ports = inl e -> config_error e.
Proof.
  induction servers as [|[s|l|server] servers IH]; intros ports e H;
    cbn [listen_ports_loop] in H;
    [discriminate H | inversion H; unfold config_error; auto
     | inversion H; unfold config_error; auto |].
  destruct (dict_get String.eqb "listen" server) as [listen|]; [|eauto].
  destruct (truthy (Some listen)); [|eauto].
  destruct (int listen) as [e'|n] eqn:Hi; [|eauto].
  inversion H; subst. apply int_error in Hi. exact Hi.
Qed.

(** X17. The lookup [routes[listen_ports[0]]] that both servers make for
    every request never raises [KeyError]: whenever the two accessors
    return and there is a first port, [routes] has that port.  What it can
    raise is [IndexError], when no server block has a [listen], or the
    [AttributeError], [ValueError] or [TypeError] of an accessor. *)
Theorem routes_of_first_port_no_KeyError :
  forall config : list (string * value),
  routes_of_first_port config <> inl KeyError /\
  ((exists route_map, routes_of_first_port config = inr route_map) \/
   routes_of_first_port config = inl IndexError \/
   (exists e, routes_of_first_port config = inl e /\ config_error e)).
Proof.
  intros config.
  assert (H : (exists route_map, routes_of_first_port config = inr route_map) \/
              routes_of_first_port config = inl IndexError \/
              (exists e, routes_of_first_port config = inl e /\ config_error e));
    [|split; [|exact H];
      destruct H as [[rm ->] | [-> | (e & -> & [-> | [-> | ->]])]]; discriminate].
  unfold routes_of_first_port.
  destruct (routes config) as [e|mapping] eqn:Hr.
  - right; right. exists e. split; [reflexivity|].
    unfold routes in Hr. destruct (get_servers config) as [e'|servers] eqn:Hg.
    + inversion Hr; subst. apply get_servers_error in Hg. exact Hg.
    + apply routes_loop_error in Hr. exact Hr.
  - destruct (listen_ports config) as [e|[|port ports]] eqn:Hl.
    + right; right. exists e. split; [reflexivity|].
      unfold listen_ports in Hl. destruct (get_servers config) as [e'|servers] eqn:Hg.
      * inversion Hl; subst. apply get_servers_error in Hg. exact Hg.
      * apply listen_ports_loop_error in Hl. exact Hl.
    + auto.
    + left. unfold routes in Hr. unfold listen_ports in Hl.
      destruct (get_servers config) as [e'|servers]; [discriminate Hr|].
      pose proof (ports_have_routes _ _ _ _ _ Hl Hr) as H.
      destruct (dict_get Z.eqb port mapping) as [route_map|] eqn:Hget; [eauto|].
      exfalso. apply (H (fun p Hp => match Hp with end) port); [left; reflexivity | exact Hget].
Qed.


Lemma routes_loop_app before : forall after mapping0 mapping,
  routes_loop (before ++ after) mapping0 = inr mapping ->
  exists mapping1,
    routes_loop before mapping0 = inr mapping1 /\
    routes_loop after mapping1 = inr mapping.
Proof.
  induction before as [|server before IH]; intros after mapping0 mapping H.
  - eauto.
  - cbn [app routes_loop] in H |- *.
    destruct (server_routes server) as [e|[port rm]]; [discriminate H | eauto].
Qed.

Lemma routes_loop_other_ports p servers : forall mapping0 mapping,
  routes_loop servers mapping0 = inr mapping ->
  Forall (fun server => forall q rm, server_routes server = inr (q, rm) -> q <> p) servers ->
  dict_get Z.eqb p mapping = dict_get Z.eqb p mapping0.
Proof.
  induction servers as [|server servers IH]; intros mapping0 mapping H Hall.
  - inversion H; subst. reflexivity.
  - cbn [routes_loop] in H. inversion Hall as [|? ? Hs Hall']; subst.
    destruct (server_routes server) as [e|[port rm]] eqn:Hr; [discriminate H|].
    rewrite (IH _ _ H Hall').
    apply (dict_get_set_ne Z.eqb Z_eqb_spec). eauto.
Qed.

(** X18. When several server blocks have the same port, [routes] keeps for
    that port the route map of the last of them only: the locations of the
    earlier blocks are gone. *)
Theorem routes_last_server_wins :
  forall (config : list (string * value)) (servers : value)
         (before after : list value) (server : value)
         (p : Z) (route_map : list (string * value))
         (mapping : list (Z * list (string * value))),
  get_servers config = inr servers ->
  iterate servers = before ++ server :: after ->
  server_routes server = inr (p, route_map) ->
  Forall (fun later => forall q rm, server_routes later = inr (q, rm) -> q <> p) after ->
  routes config = inr mapping ->
  dict_get Z.eqb p mapping = Some route_map.
Proof.
  intros config servers before after server p route_map mapping Hg Hit Hs Hafter Hr.
  unfold routes in Hr. rewrite Hg, Hit in Hr.
  apply routes_loop_app in Hr as (mapping1 & _ & Hr).
  cbn [routes_loop] in Hr. rewrite Hs in Hr.
  rewrite (routes_loop_other_ports p _ _ _ Hr Hafter).
  apply (dict_get_set_eq Z.eqb Z_eqb_spec).
Qed.

Lemma items_loop_declared items : forall route_map,
  NoDup (map fst route_map ++ map fst items) ->
  items_loop items route_map = route_map ++ declared_routes items.
Proof.
  induction items as [|[path inner] items IH]; intros route_map Hnd.
  - cbn. rewrite app_nil_r. reflexivity.
  - assert (Hnd' : NoDup (map fst route_map ++ map fst items)).
    { cbn [map fst] in Hnd. apply NoDup_app in Hnd as (H1 & H2 & H3).
      apply NoDup_app. split; [assumption|]. split.
      - intros x Hx Hx'. apply (H2 x Hx). right. exact Hx'.
      - inversion H3; assumption. }
    cbn [items_loop declared_routes].
    destruct inner as [s|l|inner]; try (apply IH; exact Hnd').
    destruct (dict_get String.eqb "root" inner) as [root|]; [|apply IH; exact Hnd'].
    assert (Hnew : ~ In path (map fst route_map)).
    { cbn [map fst] in Hnd. apply NoDup_app in Hnd as (_ & H2 & _).
      intros Hin. apply (H2 path); [apply list_elem_of_In; exact Hin | left]. }
    rewrite (dict_set_new String.eqb String.eqb_eq) by exact Hnew.
    rewrite IH.
    + rewrite <- app_assoc. reflexivity.
    + rewrite map_app. cbn [map fst]. rewrite <- app_assoc. cbn [app].
      cbn [map fst] in Hnd. apply NoDup_app in Hnd as (H1 & H2 & H3).
      inversion H3 as [|? ? Hp H3']; subst.
      apply NoDup_app. split; [assumption|]. split.
      * intros x Hx Hx'. apply (H2 x Hx). exact Hx'.
      * exact H3.
Qed.

(** X19. For a configuration with one server block whose [listen] is a
    number and whose location mapping has distinct prefixes, the routes the
    servers look up for a request are the declared ones: each prefix whose
    block has a [root], with that root, in the order of declaration; blocks
    without a [root] are left out. *)
Theorem one_server_routes :
  forall (server items : list (string * value)) (listen : string) (port : Z),
  dict_get String.eqb "listen" server = Some (Str listen) ->
  PyInt.of_string listen = Some port ->
  dict_get String.eqb "location" server = Some (Dict items) ->
  NoDup (map fst items) ->
  listen_ports (one_server server) = inr [port] /\
  routes (one_server server) = inr [(port, declared_routes items)] /\
  routes_of_first_port (one_server server) = inr (declared_routes items).
Proof.
  intros server items listen port Hlisten Hport Hloc Hnd.
  assert (Hl : listen_ports (one_server server) = inr [port]).
  { unfold listen_ports, one_server, get_servers. cbn.
    rewrite Hlisten. unfold int. rewrite Hport.
    destruct listen; [discriminate Hport | reflexivity]. }
  assert (Hr : routes (one_server server) = inr [(port, declared_routes items)]).
  { unfold routes, one_server, get_servers. cbn.
    rewrite Hlisten, Hloc. cbn. unfold int. rewrite Hport.
    rewrite (items_loop_declared items []) by exact Hnd. reflexivity. }
  split; [exact Hl|]. split; [exact Hr|].
  unfold routes_of_first_port. rewrite Hr, Hl. cbn. rewrite Z.eqb_refl. reflexivity.
Qed.

Lemma one_server_routes_witness :
  dict_get String.eqb "listen" sample_server = Some (Str "8080") /\
  PyInt.of_string "8080" = Some 8080 /\
  dict_get String.eqb "location" sample_server = Some (Dict sample_items) /\
  NoDup (map fst sample_items) /\
  listen_ports (one_server sample_server) = inr [8080] /\
  routes (one_server sample_server) = inr [(8080, declared_routes sample_items)] /\
  routes_of_first_port (one_server sample_server) = inr (declared_routes sample_items).
Proof.
  assert (Hnd : NoDup (map fst sample_items)).
  { unfold sample_items. cbn [map fst].
    repeat (apply NoDup_cons_2;
            [rewrite list_elem_of_In; simpl; intuition discriminate|]).
    apply NoDup_nil_2. }
  split; [reflexivity|]. split; [reflexivity|]. split; [reflexivity|].
  split; [exact Hnd|].
  exact (one_server_routes sample_server sample_items "8080" 8080
           eq_refl eq_refl eq_refl Hnd).
Defined.

(** X20. A lone server block without a [listen] directive gets its routes
    under port 80 but no listening port, so that the lookup the servers
    make raises [IndexError]. *)
Theorem server_without_listen :
  forall (server : list (string * value)) (mapping : list (Z * list (string * value))),
  dict_get String.eqb "listen" server = None ->
  routes (one_server server) = inr mapping ->
  listen_ports (one_server server) = inr [] /\
  (exists route_map, mapping = [(80, route_map)]) /\
  routes_of_first_port (one_server server) = inl IndexError.
Proof.
  intros server mapping Hlisten Hr.
  assert (Hl : listen_ports (one_server server) = inr []).
  { unfold listen_ports, one_server, get_servers. cbn. rewrite Hlisten. reflexivity. }
  split; [exact Hl|]. split.
  - unfold routes, one_server, get_servers in Hr. cbn in Hr. rewrite Hlisten in Hr.
    destruct (locations_loop _ []) as [e|rm]; inversion Hr. eauto.
  - unfold routes_of_first_port. rewrite Hr, Hl. reflexivity.
Qed.

Lemma server_without_listen_witness :
  dict_get String.eqb "listen" [("location", Dict [("/", Dict [("root", Str "html")])])]
    = None /\
  routes (one_server [("location", Dict [("/", Dict [("root", Str "html")])])])
    = inr [(80, [("/", Str "html")])] /\
  listen_ports (one_server [("location", Dict [("/", Dict [("root", Str "html")])])])
    = inr [] /\
  (exists route_map, [(80, [("/", Str "html")])] = [(80, route_map)]) /\
  routes_of_first_port
    (one_server [("location", Dict [("/", Dict [("root", Str "html")])])])
  = inl IndexError.
Proof.
  split; [reflexivity|]. split; [reflexivity|].
  apply (server_without_listen
           [("location", Dict [("/", Dict [("root", Str "html")])])]
           [(80, [("/", Str "html")])]); reflexivity.
Defined.

(** X21. A server block in which [listen] is given twice, or with several
    arguments, has a list for its port: both accessors raise [TypeError],
    which [listen_ports] does not turn into its [ValueError]. *)
Theorem listen_given_twice :
  forall (server : list (string * value)) (first : value) (more : list value),
  dict_get String.eqb "listen" server = Some (Lst (first :: more)) ->
  listen_ports (one_server server) = inl TypeError /\
  routes (one_server server) = inl TypeError.
Proof.
  intros server first more Hlisten.
  unfold listen_ports, routes, one_server, get_servers. cbn.
  rewrite Hlisten. cbn. auto.
Qed.

Lemma listen_given_twice_witness :
  dict_get String.eqb "listen" [("listen", Lst [Str "80"; Str "81"])]
    = Some (Lst [Str "80"; Str "81"]) /\
  listen_ports (one_server [("listen", Lst [Str "80"; Str "81"])]) = inl TypeError /\
  routes (one_server [("listen", Lst [Str "80"; Str "81"])]) = inl TypeError.
Proof.
  split; [reflexivity|].
  apply (listen_given_twice [("listen", Lst [Str "80"; Str "81"])] (Str "80") [Str "81"]).
  reflexivity.
Defined.

End AccessorFacts.
Lemma routes_last_server_wins_witness :
  ServerConfig.get_servers two_servers_one_port = inr (Lst [first_block; second_block]) /\
  ServerConfig.iterate (Lst [first_block; second_block])
    = [first_block] ++ second_block :: [] /\
  ServerConfig.server_routes second_block = inr (80, [("/api", Str "second")]) /\
  Forall (fun later => forall q rm, ServerConfig.server_routes later = inr (q, rm) -> q <> 80)
         [] /\
  ServerConfig.routes two_servers_one_port = inr [(80, [("/api", Str "second")])] /\
  dict_get Z.eqb 80 [(80, [("/api", Str "second")])] = Some [("/api", Str "second")].
Proof.
  split; [reflexivity|]. split; [reflexivity|]. split; [reflexivity|].
  split; [constructor|]. split; [reflexivity|].
  apply (routes_last_server_wins two_servers_one_port (Lst [first_block; second_block])
           [first_block] [] second_block 80 [("/api", Str "second")]
           [(80, [("/api", Str "second")])]);
    first [reflexivity | constructor].
Defined.

(** ** Directives given several times *)

Section Directives.
Import SimpleConfigParser.

Variable key : string.

Lemma parse_block_directive fuel config v rest :
  _parse_block (S fuel) config
    (("WORD", key) :: ("WORD", v) :: ("SEMICOLON", ";") :: rest)
  = _parse_block fuel (add_value key (Str v) config) rest.
Proof. reflexivity. Qed.

Lemma add_value_to_list l v :
  add_value key (Str v) [(key, Lst l)] = [(key, Lst (l ++ [Str v]))].
Proof.
  unfold add_value. cbn [dict_get]. rewrite String.eqb_refl.
  cbn [dict_set]. rewrite String.eqb_refl. reflexivity.
Qed.

Lemma parse_block_directives values : forall l fuel,
  (length values < fuel)%nat ->
  _parse_block fuel [(key, Lst l)] (directives key values)
  = Some (inr ([(key, Lst (l ++ map Str values))], [])).
Proof.
  induction values as [|v values IH]; intros l fuel Hfuel.
  - destruct fuel; [lia|]. cbn. rewrite app_nil_r. reflexivity.
  - destruct fuel as [|fuel]; [lia|]. cbn [length] in Hfuel.
    cbn [directives flat_map app]. rewrite parse_block_directive, add_value_to_list.
    change (flat_map (fun v0 => [("WORD", key); ("WORD", v0); ("SEMICOLON", ";")]) values)
      with (directives key values).
    rewrite IH by lia. cbn [map]. rewrite <- app_assoc. reflexivity.
Qed.

Lemma directives_length values :
  length (directives key values) = (3 * length values)%nat.
Proof.
  induction values as [|v values IH]; [reflexivity|].
  cbn [directives flat_map app length].
  change (flat_map (fun v0 => [("WORD", key); ("WORD", v0); ("SEMICOLON", ";")]) values)
    with (directives key values).
  rewrite IH. lia.
Qed.

End Directives.

(** X22. A directive given twice or more, with one argument each time, is
    parsed into one entry that holds the list of the arguments in the order
    they were given. *)
Theorem parse_repeated_directive :
  forall (key first second : string) (more : list string),
  SimpleConfigParser.parse (directives key (first :: second :: more))
  = Some (inr [(key, Lst (map Str (first :: second :: more)))]).
Proof.
  intros key first second more. unfold SimpleConfigParser.parse.
  cbn [directives flat_map app length].
  rewrite !parse_block_directive.
  change (flat_map (fun v => [("WORD", key); ("WORD", v); ("SEMICOLON", ";")]) more)
    with (directives key more).
  assert (Hcfg : SimpleConfigParser.add_value key (Str second)
                   (SimpleConfigParser.add_value key (Str first) [])
                 = [(key, Lst [Str first; Str second])]).
  { change (SimpleConfigParser.add_value key (Str first) []) with [(key, Str first)].
    unfold SimpleConfigParser.add_value. cbn [dict_get]. rewrite String.eqb_refl.
    cbn [dict_set]. rewrite String.eqb_refl. reflexivity. }
  rewrite Hcfg, parse_block_directives; [reflexivity|].
  rewrite directives_length. lia.
Qed.

(** ** The tests of the configuration code, on the model *)

Lemma test_block_with_argument :
  SimpleConfigLexer.tokenize "location / { root /html; }"
  = Some (inr [("WORD", "location"); ("WORD", "/"); ("LBRACE", "{"); ("WORD", "root");
               ("WORD", "/html"); ("SEMICOLON", ";"); ("RBRACE", "}")]).
Proof. vm_compute. reflexivity. Qed.

Lemma test_directive_with_multiple_args :
  load_config "access_log /var/log/access.log main;"
  = Some (inr [("access_log", Lst [Str "/var/log/access.log"; Str "main"])]).
Proof. vm_compute. reflexivity. Qed.

Lemma test_multiple_server_blocks :
  load_config "http { server { listen 80; } server { listen 81; } }"
  = Some (inr [("http", Dict [("server", Lst [Dict [("listen", Str "80")];
                                              Dict [("listen", Str "81")]])])]).
Proof. vm_compute. reflexivity. Qed.

Lemma test_invalid_missing_semicolon :
  load_config "listen 8080" = Some (inl SyntaxError).
Proof. vm_compute. reflexivity. Qed.

Lemma test_invalid_block_with_multiple_arguments :
  load_config "location / api { root /foo; }" = Some (inl SyntaxError).
Proof. vm_compute. reflexivity. Qed.

Lemma test_routes_multiple_servers :
  ServerConfig.routes
    [("http", Dict [("server",
        Lst [Dict [("listen", Str "8080");
                   ("location", Dict [("/", Dict [("root", Str "/data/www")])])];
             Dict [("listen", Str "8081");
                   ("location", Dict [("/", Dict [("root", Str "/data/alt")])])]])])]
  = inr [(8080, [("/", Str "/data/www")]); (8081, [("/", Str "/data/alt")])].
Proof. vm_compute. reflexivity. Qed.

Lemma test_invalid_port_raises :
  ServerConfig.listen_ports
    [("http", Dict [("server", Dict [("listen", Str "not-a-number")])])]
  = inl ValueError.
Proof. vm_compute. reflexivity. Qed.
